(** * pydle/async.py: coroutine trampoline, [parallel] join and event loop

    A shallow embedding of [src/pydle/async.py].  Python objects live in an
    explicit store; closures ([done], [handle_future]) are defunctionalised
    into callback tags that name the store cell holding what they capture. *)

From Stdlib Require Import ZArith.
From stdpp Require Import base option list gmap.

Set Warnings "-register-all".
Open Scope Z_scope.
Open Scope nat_scope.

(** ** Python values and exceptions *)

Module Py.

(** Identity of a Future object: its index in the store. *)
Abbreviation fid := nat (only parsing).

Inductive value :=
| VNone
| VBool (b : bool)
| VInt (z : Z)
| VFuture (f : fid)
| VTuple (vs : list value)
| VList (vs : list value).

(** Exceptions.  [StopIteration] carries its [value] attribute; [Error n]
    stands for any other instance of an [Exception] subclass and [BaseExc n]
    for an instance of [BaseException] that is not an [Exception]
    (KeyboardInterrupt, SystemExit, GeneratorExit). *)
Inductive exn :=
| StopIteration (v : value)
| AttributeError
| TypeError
| ValueError
| KeyError
| AlreadySettled
| Error (n : nat)
| BaseExc (n : nat).

(** [isinstance(e, Exception)]: what [except Exception] catches. *)
Definition is_Exception (e : exn) : bool :=
  match e with
  | BaseExc _ => false
  | _ => true
  end.

Definition is_StopIteration (e : exn) : bool :=
  match e with
  | StopIteration _ => true
  | _ => false
  end.

(** An error, as opposed to the completion signal of the generator protocol:
    an [Exception] that the [except StopIteration] clause lets through. *)
Definition is_error (e : exn) : bool :=
  is_Exception e && negb (is_StopIteration e).

(** Python's [==]: Future objects compare by identity, [bool] is a subtype
    of [int], tuples and lists compare element by element. *)
Fixpoint py_eq (a b : value) {struct a} : bool :=
  let fix all2 (xs ys : list value) {struct xs} : bool :=
    match xs, ys with
    | [], [] => true
    | x :: xs', y :: ys' => py_eq x y && all2 xs' ys'
    | _, _ => false
    end in
  match a, b with
  | VNone, VNone => true
  | VBool x, VBool y => Bool.eqb x y
  | VBool x, VInt z => Z.eqb (Z.b2z x) z
  | VInt z, VBool x => Z.eqb z (Z.b2z x)
  | VInt x, VInt y => Z.eqb x y
  | VFuture f, VFuture g => Nat.eqb f g
  | VTuple xs, VTuple ys => all2 xs ys
  | VList xs, VList ys => all2 xs ys
  | _, _ => false
  end.

(** Whether [hash(v)] succeeds: lists are unhashable, and so is a tuple
    that holds one. *)
Fixpoint hashable (v : value) : bool :=
  match v with
  | VList _ => false
  | VTuple vs =>
      (fix all (xs : list value) : bool :=
         match xs with
         | [] => true
         | x :: xs' => hashable x && all xs'
         end) vs
  | _ => true
  end.

(** [bool(v)], Python's truth value. *)
Definition truthy (v : value) : bool :=
  match v with
  | VNone => false
  | VBool b => b
  | VInt z => negb (Z.eqb z 0)
  | VFuture _ => true
  | VTuple vs | VList vs => match vs with [] => false | _ => true end
  end.

(** [list.remove(x)]: drop the first element equal to [x]; [None] stands
    for the [ValueError] raised when there is none. *)
Fixpoint list_remove (x : value) (l : list value) : option (list value) :=
  match l with
  | [] => None
  | y :: l' =>
      if py_eq y x then Some l'
      else match list_remove x l' with
           | Some l'' => Some (y :: l'')
           | None => None
           end
  end.

(** [d[k] = v] on an [OrderedDict]: an existing key keeps its position. *)
Fixpoint odict_set (k v : value) (d : list (value * value)) : list (value * value) :=
  match d with
  | [] => [(k, v)]
  | (k', v') :: d' =>
      if py_eq k' k then (k', v) :: d' else (k', v') :: odict_set k v d'
  end.

(** [OrderedDict(zip(keys, itertools.repeat(None)))], for hashable keys. *)
Definition odict_fromkeys (keys : list value) : list (value * value) :=
  foldl (fun d k => odict_set k VNone d) [] keys.

(** A generator, as its caller sees it: resuming it either yields a value,
    leaving two ways to resume it again ([send] and [throw]), or raises.
    [return v] in the body is [GRaise (StopIteration v)]. *)
Inductive gen :=
| GYield (y : value) (send : value -> gen) (throw : exn -> gen)
| GRaise (e : exn).

Definition GReturn (v : value) : gen := GRaise (StopIteration v).

(** The state of a generator object. *)
Inductive gen_state :=
| GenCreated (g : gen)
| GenSuspended (send : value -> gen) (throw : exn -> gen)
| GenFinished.

End Py.
Export Py.

(** ** The object store and the Future primitive *)

Module Store.

(** The two closures the module registers as completion callbacks, each
    with the index of the cell that holds its captured variables. *)
Inductive callback :=
| CbDone (j : nat)
| CbHandleFuture (c : nat).

Inductive fstate :=
| Pending
| Resolved (v : value)
| Failed (e : exn).

Record Future := mkFuture {
  f_state : fstate;
  f_callbacks : list callback
}.

(** What [done] closes over in one call of [parallel]. *)
Record Join := mkJoin {
  futures : list value;
  results : list (value * value);
  result_future : fid
}.

(** What [handle_future] closes over in one call of [wrapper]. *)
Record Coroutine := mkCoroutine {
  gen_ : gen_state;
  return_future : fid
}.

Record heap := mkHeap {
  futs : list Future;
  joins : list Join;
  coros : list Coroutine;
  app_log : list exn
}.

Definition empty_heap : heap := mkHeap [] [] [] [].

Definition set_futs (fs : list Future) (h : heap) : heap :=
  mkHeap fs (joins h) (coros h) (app_log h).
Definition set_joins (js : list Join) (h : heap) : heap :=
  mkHeap (futs h) js (coros h) (app_log h).
Definition set_coros (cs : list Coroutine) (h : heap) : heap :=
  mkHeap (futs h) (joins h) cs (app_log h).
Definition log_exn (e : exn) (h : heap) : heap :=
  mkHeap (futs h) (joins h) (coros h) (app_log h ++ [e]).

(** Outcome of running code on the store.  [Undefined] is a reference to an
    object that is not in the store, or an operation the model leaves
    undefined; [OutOfFuel] is a model artefact of bounding the nesting of
    callback invocations. *)
Inductive res (A : Type) :=
| Ok (a : A) (h : heap)
| Raise (e : exn) (h : heap)
| Undefined
| OutOfFuel.
Arguments Ok {A} a h.
Arguments Raise {A} e h.
Arguments Undefined {A}.
Arguments OutOfFuel {A}.

Definition M (A : Type) : Type := heap -> res A.

Definition ret {A} (a : A) : M A := fun h => Ok a h.
Definition raise {A} (e : exn) : M A := fun h => Raise e h.
Definition bind {A B} (m : M A) (k : A -> M B) : M B :=
  fun h =>
    match m h with
    | Ok a h' => k a h'
    | Raise e h' => Raise e h'
    | Undefined => Undefined
    | OutOfFuel => OutOfFuel
    end.

Notation "'let*' x ':=' m 'in' k" := (bind m (fun x => k))
  (at level 10, x name, m at level 100, k at level 200).
Notation "m ';;' k" := (bind m (fun _ => k))
  (at level 100, k at level 200, right associativity).

(** [try: m except <all>: handler]; the handler decides what it catches by
    re-raising the rest. *)
Definition try_except {A} (m : M A) (handler : exn -> M A) : M A :=
  fun h =>
    match m h with
    | Raise e h' => handler e h'
    | r => r
    end.

Definition get_future (f : fid) : M Future :=
  fun h => match futs h !! f with Some F => Ok F h | None => Undefined end.
Definition put_future (f : fid) (F : Future) : M unit :=
  fun h => Ok tt (set_futs (<[f := F]> (futs h)) h).
Definition get_join (j : nat) : M Join :=
  fun h => match joins h !! j with Some J => Ok J h | None => Undefined end.
Definition put_join (j : nat) (J : Join) : M unit :=
  fun h => Ok tt (set_joins (<[j := J]> (joins h)) h).
Definition get_coro (c : nat) : M Coroutine :=
  fun h => match coros h !! c with Some C => Ok C h | None => Undefined end.
Definition put_coro (c : nat) (C : Coroutine) : M unit :=
  fun h => Ok tt (set_coros (<[c := C]> (coros h)) h).

(** [Future()]: a new pending future with no callbacks. *)
Definition new_future : M fid :=
  fun h => Ok (length (futs h)) (set_futs (futs h ++ [mkFuture Pending []]) h).
Definition new_join (J : Join) : M nat :=
  fun h => Ok (length (joins h)) (set_joins (joins h ++ [J]) h).
Definition new_coro (C : Coroutine) : M nat :=
  fun h => Ok (length (coros h)) (set_coros (coros h ++ [C]) h).

Section Future.

(** Invocation of a registered callback on a settled future; the knot is
    tied in [call] below. *)
Variable call : callback -> fid -> M unit.

(** Modelled from the spec: the Future class ([tornado.concurrent.TracebackFuture]
    is not part of this repository).  Section 4.1: [add_done_callback]
    registers the callback while the future is pending and invokes it
    immediately, with the future, once it is settled. *)
Definition add_done_callback (f : fid) (cb : callback) : M unit :=
  let* F := get_future f in
  match f_state F with
  | Pending => put_future f (mkFuture Pending (f_callbacks F ++ [cb]))
  | _ => call cb f
  end.

(** Modelled from the spec: settlement invokes the registered callbacks
    synchronously, each once, in registration order.  The spec does not say
    what becomes of an exception a callback raises; as in tornado, an
    [Exception] is logged and the remaining callbacks still run. *)
Definition logged (m : M unit) : M unit :=
  try_except m (fun e => if is_Exception e then fun h => Ok tt (log_exn e h) else raise e).

Fixpoint run_callbacks (cbs : list callback) (f : fid) : M unit :=
  match cbs with
  | [] => ret tt
  | cb :: rest =>
      logged (call cb f) ;;
      run_callbacks rest f
  end.

(** Modelled from the spec: one-shot settlement, PENDING to RESOLVED or
    FAILED; settling a settled future fails with [AlreadySettled]. *)
Definition settle (f : fid) (st : fstate) : M unit :=
  let* F := get_future f in
  match f_state F with
  | Pending =>
      put_future f (mkFuture st []) ;;
      run_callbacks (f_callbacks F) f
  | _ => raise AlreadySettled
  end.

Definition set_result (f : fid) (v : value) : M unit := settle f (Resolved v).
Definition set_exception (f : fid) (e : exn) : M unit := settle f (Failed e).

(** Modelled from the spec: [result()] returns the value or re-raises the
    stored error; on a pending future it blocks, which the model leaves
    undefined (a callback only ever sees a settled future). *)
Definition result (f : fid) : M value :=
  let* F := get_future f in
  match f_state F with
  | Resolved v => ret v
  | Failed e => raise e
  | Pending => fun _ => Undefined
  end.

(** Modelled from the spec: [exception()] returns the stored error, or
    [None] for a resolved future. *)
Definition exception (f : fid) : M (option exn) :=
  let* F := get_future f in
  match f_state F with
  | Resolved _ => ret None
  | Failed e => ret (Some e)
  | Pending => fun _ => Undefined
  end.

(** [x.add_done_callback(cb)] on an arbitrary value: only a Future has the
    attribute. *)
Definition value_add_done_callback (x : value) (cb : callback) : M unit :=
  match x with
  | VFuture f => add_done_callback f cb
  | _ => raise AttributeError
  end.

(** *** parallel (lines 52-68) *)

(** The closure [done] of the join [j], called with a settled future. *)
Definition done (j : nat) (future : fid) : M unit :=
  let* J := get_join j in
  match list_remove (VFuture future) (futures J) with
  | None => raise ValueError
  | Some rest =>
      put_join j (mkJoin rest (results J) (result_future J)) ;;
      let* r := result future in
      put_join j (mkJoin rest (odict_set (VFuture future) r (results J)) (result_future J)) ;;
      let* J' := get_join j in
      match futures J' with
      | [] => set_result (result_future J') (VList (map snd (results J')))
      | _ => ret tt
      end
  end.

(** [for future in futures: future.add_done_callback(done)].  The list
    iterator reads the live list by index, and [done] removes from that
    list when a future is already settled.  [k] bounds the number of
    iterations by the initial length: the list never grows. *)
Fixpoint for_futures (j : nat) (k i : nat) : M unit :=
  match k with
  | 0 => ret tt
  | S k' =>
      let* J := get_join j in
      match futures J !! i with
      | None => ret tt
      | Some future =>
          value_add_done_callback future (CbDone j) ;;
          for_futures j k' (S i)
      end
  end.

Definition parallel (args : list value) : M fid :=
  let* result_future := new_future in
  (if forallb hashable args then ret tt else raise TypeError) ;;
  let* j := new_join (mkJoin args (odict_fromkeys args) result_future) in
  for_futures j (length args) 0 ;;
  ret result_future.

(** *** coroutine (lines 16-50) *)

(** Resume the generator of coroutine [c] along [k]. *)
Definition resume (c : nat) (C : Coroutine) (g : gen) : M value :=
  match g with
  | GYield y send throw =>
      put_coro c (mkCoroutine (GenSuspended send throw) (return_future C)) ;;
      ret y
  | GRaise e =>
      put_coro c (mkCoroutine GenFinished (return_future C)) ;;
      raise e
  end.

(** [next(gen)] *)
Definition gen_next (c : nat) : M value :=
  let* C := get_coro c in
  match gen_ C with
  | GenCreated g => resume c C g
  | GenSuspended send _ => resume c C (send VNone)
  | GenFinished => raise (StopIteration VNone)
  end.

(** [gen.send(v)] *)
Definition gen_send (c : nat) (v : value) : M value :=
  let* C := get_coro c in
  match gen_ C with
  | GenCreated g =>
      match v with
      | VNone => resume c C g
      | _ => raise TypeError
      end
  | GenSuspended send _ => resume c C (send v)
  | GenFinished => raise (StopIteration VNone)
  end.

(** [gen.throw(e)] *)
Definition gen_throw (c : nat) (e : exn) : M value :=
  let* C := get_coro c in
  match gen_ C with
  | GenCreated _ =>
      put_coro c (mkCoroutine GenFinished (return_future C)) ;;
      raise e
  | GenSuspended _ throw => resume c C (throw e)
  | GenFinished => raise e
  end.

(** Lines 29-31 and 41-43: a yielded tuple is joined, then the trampoline
    waits for the resulting value. *)
Definition await (c : nat) (result : value) : M unit :=
  let* result :=
    match result with
    | VTuple elems =>
        let* joined := parallel elems in
        ret (VFuture joined)
    | _ => ret result
    end in
  value_add_done_callback result (CbHandleFuture c).

(** The two [except] clauses shared by [wrapper] and [handle_future]. *)
Definition on_exception (return_future : fid) (e : exn) : M unit :=
  match e with
  | StopIteration v => set_result return_future v
  | _ => if is_Exception e then set_exception return_future e else raise e
  end.

Definition handle_future (c : nat) (future : fid) : M unit :=
  let* C := get_coro c in
  try_except
    (let* e := exception future in
     let* result :=
       match e with
       | Some e => gen_throw c e
       | None =>
           let* v := result future in
           gen_send c v
       end in
     await c result)
    (on_exception (return_future C)).

(** The body of [wrapper], given the generator object [gen] that the call
    of [func] creates. *)
Definition wrapper (g : gen) : M fid :=
  let* return_future := new_future in
  let* c := new_coro (mkCoroutine (GenCreated g) return_future) in
  try_except
    (let* result := gen_next c in
     await c result)
    (on_exception return_future) ;;
  ret return_future.

End Future.

(** One turn of the trampoline: resume the generator along [g] and wait for
    what it yields (the [try] block and [except] clauses of both [wrapper]
    and [handle_future]). *)
Definition advance (call : callback -> fid -> M unit) (c : nat) (g : gen) : M unit :=
  let* C := get_coro c in
  try_except
    (let* result := resume c C g in
     await call c result)
    (on_exception call (return_future C)).

(** Callback invocation: [fuel] bounds how deeply settlements nest
    (a callback settling a future whose callbacks settle a future ...). *)
Fixpoint call (fuel : nat) (cb : callback) (f : fid) : M unit :=
  match fuel with
  | 0 => fun _ => OutOfFuel
  | S n =>
      match cb with
      | CbDone j => done (call n) j f
      | CbHandleFuture c => handle_future (call n) c f
      end
  end.

(** *** Scenarios: futures settled by the environment *)

(** Number of occurrences of a future among the arguments. *)
Fixpoint occ (f : fid) (l : list fid) : nat :=
  match l with
  | [] => 0
  | g :: l' => (if Nat.eqb g f then 1 else 0) + occ f l'
  end.

(** The distinct elements of a list, each at its first occurrence. *)
Fixpoint uniq (l : list fid) : list fid :=
  match l with
  | [] => []
  | f :: l' => f :: filter (fun g => g ≠ f) (uniq l')
  end.

(** The environment resolves the futures [ord], in that order, future [f]
    with value [r f]. *)
Fixpoint resolve_all (fuel : nat) (ord : list fid) (r : fid -> value) : M unit :=
  match ord with
  | [] => ret tt
  | f :: ord' => set_result (call fuel) f (r f) ;; resolve_all fuel ord' r
  end.

(** What a coroutine waits for, and what the environment then does: it
    yields one future, which settles with a value or an error; or it
    yields the tuple of the futures [fs], which are all resolved, in the
    order [ord]. *)
Inductive await_event :=
| Settles (f : fid) (o : value + exn)
| AllResolve (fs : list fid) (ord : list fid) (r : fid -> value).

Definition settle_with (fuel : nat) (f : fid) (o : value + exn) : M unit :=
  match o with
  | inl v => set_result (call fuel) f v
  | inr e => set_exception (call fuel) f e
  end.

Fixpoint play (fuel : nat) (sc : list await_event) : M unit :=
  match sc with
  | [] => ret tt
  | Settles f o :: sc' => settle_with fuel f o ;; play fuel sc'
  | AllResolve _ ord r :: sc' => resolve_all fuel ord r ;; play fuel sc'
  end.

(** The futures the environment settles in a scenario. *)
Fixpoint settled_by (sc : list await_event) : list fid :=
  match sc with
  | [] => []
  | Settles f _ :: sc' => f :: settled_by sc'
  | AllResolve _ ord _ :: sc' => ord ++ settled_by sc'
  end.

(** Each tuple is not empty and [ord] lists exactly its futures. *)
Fixpoint well_formed (sc : list await_event) : Prop :=
  match sc with
  | [] => True
  | Settles _ _ :: sc' => well_formed sc'
  | AllResolve fs ord _ :: sc' =>
      fs ≠ [] /\ (forall f, f ∈ ord <-> f ∈ fs) /\ well_formed sc'
  end.

(** The futures of a tuple that holds nothing else. *)
Fixpoint as_futures (vs : list value) : option (list fid) :=
  match vs with
  | [] => Some []
  | VFuture f :: vs' =>
      match as_futures vs' with
      | Some fs => Some (f :: fs)
      | None => None
      end
  | _ :: _ => None
  end.

(** The generator [g] after it has been resumed with the outcomes of the
    scenario, provided it yields exactly what the scenario says: a tuple of
    futures is answered by the list of their results. *)
Fixpoint gen_after (g : gen) (sc : list await_event) {struct sc} : option gen :=
  match sc with
  | [] => Some g
  | ev :: sc' =>
      match g, ev with
      | GYield (VFuture f') send throw, Settles f o =>
          if Nat.eqb f' f
          then gen_after (match o with inl v => send v | inr e => throw e end) sc'
          else None
      | GYield (VTuple elems) send throw, AllResolve fs ord r =>
          if decide (as_futures elems = Some fs)
          then gen_after (send (VList (map r (uniq fs)))) sc'
          else None
      | _, _ => None
      end
  end.

(** How the generator ends in a scenario: the exception that finally
    leaves it ([StopIteration] for a return). *)
Definition gen_follows (g : gen) (sc : list await_event) : option exn :=
  match gen_after g sc with
  | Some (GRaise e) => Some e
  | _ => None
  end.

(** How the outer future ends for a generator that ends with [e]. *)
Definition final_state (e : exn) : fstate :=
  match e with
  | StopIteration v => Resolved v
  | _ => Failed e
  end.

(** A pending future nobody waits for yet. *)
Definition fresh (h : heap) (f : fid) : Prop :=
  futs h !! f = Some (mkFuture Pending []).

(** The futures after the environment has resolved those of [ord]. *)
Definition resolved_futs (F : list Future) (ord : list fid) (r : fid -> value) : list Future :=
  foldl (fun F g => <[g := mkFuture (Resolved (r g)) []]> F) F ord.

(** The result dictionary after [done] has stored the results of [ord]. *)
Definition results_after (res : list (value * value)) (ord : list fid) (r : fid -> value)
  : list (value * value) :=
  foldl (fun d g => odict_set (VFuture g) (r g) d) res ord.

(** A dictionary entry for a future. *)
Definition entry (val : fid -> value) (f : fid) : value * value := (VFuture f, val f).

(** A future with more callbacks registered. *)
Definition with_callbacks (cbs : list callback) (F : Future) : Future :=
  mkFuture (f_state F) (f_callbacks F ++ cbs).

(** The exception the trampoline meets when it tries to wait for a yielded
    value it cannot wait for: a value that is neither a future nor a
    tuple has no [add_done_callback]; a tuple with an unhashable element
    cannot key the result dictionary of [parallel]; a tuple whose first
    element is not a future fails in the registration loop. *)
Definition not_awaitable (y : value) : option exn :=
  match y with
  | VFuture _ => None
  | VTuple elems =>
      if forallb hashable elems
      then match elems with
           | [] | VFuture _ :: _ => None
           | _ :: _ => Some AttributeError
           end
      else Some TypeError
  | _ => Some AttributeError
  end.

(** *** Examples *)

(** A store with three pending futures and nothing else. *)
Definition three_fresh : heap :=
  mkHeap [mkFuture Pending []; mkFuture Pending []; mkFuture Pending []] [] [] [].

Definition times_ten (f : fid) : value := VInt (Z.of_nat f * 10).

(** Yields future 0 and returns what it resolves to, plus one. *)
Definition add_one : gen :=
  GYield (VFuture 0)
    (fun v => match v with VInt z => GReturn (VInt (z + 1)) | _ => GRaise TypeError end)
    (fun e => GRaise e).

(** Waits for future 0, then for the tuple of futures 1 and 2, and returns
    what the tuple is answered with. *)
Definition wait_then_join : gen :=
  GYield (VFuture 0)
    (fun _ => GYield (VTuple [VFuture 1; VFuture 2]) (fun v => GReturn v) (fun e => GRaise e))
    (fun e => GRaise e).

End Store.
Export Store.

(** ** The event loop: descriptor table (lines 71-172) *)

Module Loop.

Inductive event := read | write | error.

#[global] Instance event_eq_dec : EqDecision event.
Proof. solve_decision. Defined.

(** Identity of a callback function. *)
Definition handler := nat.

(** [{ key: [] for key in self.EVENT_MAPPING }]: one callback list per
    event kind. *)
Record fd_handlers := mkFd {
  on_read_list : list handler;
  on_write_list : list handler;
  on_error_list : list handler
}.

Definition get_list (ev : event) (H : fd_handlers) : list handler :=
  match ev with
  | read => on_read_list H
  | write => on_write_list H
  | error => on_error_list H
  end.

Definition set_list (ev : event) (l : list handler) (H : fd_handlers) : fd_handlers :=
  match ev with
  | read => mkFd l (on_write_list H) (on_error_list H)
  | write => mkFd (on_read_list H) l (on_error_list H)
  | error => mkFd (on_read_list H) (on_write_list H) l
  end.

(** Modelled from the spec: the underlying multiplexer ([tornado.ioloop.IOLoop]
    is not part of this repository) is the table [io_handlers] of the
    interest mask last applied to each descriptor; [remove_handler] drops
    the entry and [add_handler] sets it. *)
Record EventLoop := mkLoop {
  handlers : gmap Z fd_handlers;
  io_handlers : gmap Z Z
}.

Inductive lres (A : Type) :=
| LOk (a : A) (L : EventLoop)
| LRaise (e : exn) (L : EventLoop).
Arguments LOk {A} a L.
Arguments LRaise {A} e L.

(** [list.remove(x)] on a list of callbacks. *)
Fixpoint remove_handler_from (x : handler) (l : list handler) : option (list handler) :=
  match l with
  | [] => None
  | y :: l' =>
      if Nat.eqb y x then Some l'
      else match remove_handler_from x l' with
           | Some l'' => Some (y :: l'')
           | None => None
           end
  end.

Section EventLoop.

(** [EVENT_MAPPING]: the flag tornado gives each event kind (its
    [IOLoop.READ], [IOLoop.WRITE] and [IOLoop.ERROR] constants). *)
Variable EVENT_MAPPING : event -> Z.

(** Whether the call of a callback with a descriptor raises.  Callbacks are
    user code; they are taken not to change the handler table while a
    notification is being dispatched. *)
Variable handler_raises : handler -> Z -> option exn.

Definition EVENT_MAPPING_items : list (event * Z) :=
  [(read, EVENT_MAPPING read); (write, EVENT_MAPPING write); (error, EVENT_MAPPING error)].

Definition register (fd : Z) (L : EventLoop) : lres unit :=
  LOk tt (mkLoop (<[fd := mkFd [] [] []]> (handlers L)) (io_handlers L)).

Definition unregister (fd : Z) (L : EventLoop) : lres unit :=
  match handlers L !! fd with
  | None => LRaise KeyError L
  | Some _ => LOk tt (mkLoop (delete fd (handlers L)) (io_handlers L))
  end.

Definition remove_handler (fd : Z) (L : EventLoop) : EventLoop :=
  mkLoop (handlers L) (delete fd (io_handlers L)).

Definition add_handler (fd : Z) (events : Z) (L : EventLoop) : EventLoop :=
  mkLoop (handlers L) (<[fd := events]> (io_handlers L)).

(** The loop of [_update_events]: [events |= ident] for each kind whose
    list is non-empty. *)
Definition collect_events (H : fd_handlers) : Z :=
  foldl (fun events '(ev, ident) =>
           match get_list ev H with
           | [] => events
           | _ => Z.lor events ident
           end) 0%Z EVENT_MAPPING_items.

Definition _update_events (fd : Z) (L : EventLoop) : lres unit :=
  let L := remove_handler fd L in
  match handlers L !! fd with
  | None => LRaise KeyError L
  | Some H => LOk tt (add_handler fd (collect_events H) L)
  end.

(** [on_read], [on_write], [on_error] differ only in the key. *)
Definition on_event (ev : event) (fd : Z) (callback : handler) (L : EventLoop) : lres unit :=
  match handlers L !! fd with
  | None => LRaise KeyError L
  | Some H =>
      _update_events fd
        (mkLoop (<[fd := set_list ev (get_list ev H ++ [callback]) H]> (handlers L))
                (io_handlers L))
  end.

Definition on_read := on_event read.
Definition on_write := on_event write.
Definition on_error := on_event error.

(** [off_read], [off_write], [off_error]. *)
Definition off_event (ev : event) (fd : Z) (callback : handler) (L : EventLoop) : lres unit :=
  match handlers L !! fd with
  | None => LRaise KeyError L
  | Some H =>
      match remove_handler_from callback (get_list ev H) with
      | None => LRaise ValueError L
      | Some l =>
          _update_events fd
            (mkLoop (<[fd := set_list ev l H]> (handlers L)) (io_handlers L))
      end
  end.

Definition off_read := off_event read.
Definition off_write := off_event write.
Definition off_error := off_event error.

(** [handles_read], [handles_write], [handles_error]. *)
Definition handles_event (ev : event) (fd : Z) (callback : handler) (L : EventLoop) : lres bool :=
  match handlers L !! fd with
  | None => LRaise KeyError L
  | Some H => LOk (existsb (Nat.eqb callback) (get_list ev H)) L
  end.

Definition handles_read := handles_event read.
Definition handles_write := handles_event write.
Definition handles_error := handles_event error.

(** Calling the callbacks of one list in order; the result is the list of
    callbacks called and the exception that stopped the calls, if any. *)
Fixpoint call_handlers (fd : Z) (l : list handler) : list handler * option exn :=
  match l with
  | [] => ([], None)
  | h :: l' =>
      match handler_raises h fd with
      | Some e => ([h], Some e)
      | None => let '(called, r) := call_handlers fd l' in (h :: called, r)
      end
  end.

Fixpoint dispatch (fd : Z) (events : Z) (H : fd_handlers) (items : list (event * Z))
  : list handler * option exn :=
  match items with
  | [] => ([], None)
  | (ev, ident) :: items' =>
      if Z.eqb (Z.land events ident) 0 then dispatch fd events H items'
      else
        match call_handlers fd (get_list ev H) with
        | (called, Some e) => (called, Some e)
        | (called, None) =>
            let '(called', r) := dispatch fd events H items' in (called ++ called', r)
        end
  end.

(** [_do_on_event]: the callbacks called, in order, and the outcome. *)
Definition _do_on_event (fd : Z) (events : Z) (L : EventLoop) : list handler * lres unit :=
  match handlers L !! fd with
  | None => ([], LOk tt L)
  | Some H =>
      match dispatch fd events H EVENT_MAPPING_items with
      | (called, Some e) => (called, LRaise e L)
      | (called, None) => (called, LOk tt L)
      end
  end.

(** The mask the spec describes: the union, over the three kinds, of the
    flag of each kind whose callback list is non-empty. *)
Definition flag_if_nonempty (ev : event) (H : fd_handlers) : Z :=
  match get_list ev H with
  | [] => 0%Z
  | _ => EVENT_MAPPING ev
  end.

Definition interest_union (H : fd_handlers) : Z :=
  Z.lor (flag_if_nonempty read H)
        (Z.lor (flag_if_nonempty write H) (flag_if_nonempty error H)).

(** The callbacks of a descriptor that a notification with the flags
    [events] is for: those of each kind whose flag is among [events], kind
    by kind, in the order of their registration. *)
Definition selected_for (ev : event) (events : Z) (H : fd_handlers) : list handler :=
  if Z.eqb (Z.land events (EVENT_MAPPING ev)) 0 then [] else get_list ev H.

Definition selected (events : Z) (H : fd_handlers) : list handler :=
  selected_for read events H ++ selected_for write events H ++ selected_for error events H.

End EventLoop.

(** How many times a callback is registered in a list. *)
Definition registrations (cb : handler) (l : list handler) : nat :=
  length (filter (fun c => c = cb) l).

(** The flags tornado gives the three event kinds. *)
Definition tornado_flags (ev : event) : Z :=
  match ev with
  | read => 1
  | write => 4
  | error => 24
  end%Z.

End Loop.

(** ** The event loop: timers (lines 180-235) *)

Module Timer.

(** What the loop runs: a user callback (identified by a number, its
    arguments bound by [functools.partial]) or one of the loop's own
    methods bound to one. *)
Inductive action :=
| Callback (cb : nat)
| PeriodicHandler (interval : Z) (cb : nat)
| DoScheduleIn (when : Z) (cb : nat)
| DoSchedulePeriodically (interval : Z) (cb : nat).

Record timeout := mkTimeout {
  t_handle : nat;
  t_deadline : Z;
  t_action : action
}.

(** Modelled from the spec: the timer entries and the run-as-soon-as-possible
    queue of the underlying loop ([tornado.ioloop.IOLoop] is not part of
    this repository).  [calls] records every call of a user callback and
    [errors] what the loop logs when something it runs raises. *)
Record IOLoop := mkIO {
  timeouts : list timeout;
  callbacks : list action;
  next_handle : nat;
  time : Z;
  run_thread : option nat;
  calls : list nat;
  errors : list exn
}.

Definition add_timeout (delay : Z) (a : action) (L : IOLoop) : nat * IOLoop :=
  (next_handle L,
   mkIO (timeouts L ++ [mkTimeout (next_handle L) (time L + delay) a])
        (callbacks L) (S (next_handle L)) (time L) (run_thread L) (calls L) (errors L)).

Definition remove_timeout (handle : nat) (L : IOLoop) : IOLoop :=
  mkIO (filter (fun t => t_handle t ≠ handle) (timeouts L))
       (callbacks L) (next_handle L) (time L) (run_thread L) (calls L) (errors L).


Section Timers.

(** What the [k]-th call (from 0) of callback [cb] does: return a value or
    raise. *)
Variable behaviour : nat -> nat -> value + exn.

Definition ncalls (cb : nat) (L : IOLoop) : nat :=
  length (filter (fun c => c = cb) (calls L)).

(** A call of the user callback [cb] with its bound arguments. *)
Definition invoke (cb : nat) (L : IOLoop) : (value + exn) * IOLoop :=
  (behaviour cb (ncalls cb L),
   mkIO (timeouts L) (callbacks L) (next_handle L) (time L)
        (run_thread L) (calls L ++ [cb]) (errors L)).

Definition _do_schedule_in (when : Z) (cb : nat) (L : IOLoop) : nat * IOLoop :=
  add_timeout when (Callback cb) L.

Definition _do_schedule_periodically (interval : Z) (cb : nat) (L : IOLoop) : nat * IOLoop :=
  add_timeout interval (PeriodicHandler interval cb) L.





(** The [finally] clause of [_periodic_handler]. *)
Definition finally_unschedule (result : value) (handle : nat) (L : IOLoop) : IOLoop :=
  if py_eq result (VBool false) then remove_timeout handle L else L.

(** [_periodic_handler]: the new state and the exception that leaves the
    method, if any. *)
Definition _periodic_handler (interval : Z) (cb : nat) (L : IOLoop) : option exn * IOLoop :=
  let '(handle, L) := _do_schedule_periodically interval cb L in
  let result := VBool false in
  match invoke cb L with
  | (inl result, L) => (None, finally_unschedule result handle L)
  | (inr e, L) => (Some e, finally_unschedule result handle L)
  end.

Definition run_action (a : action) (L : IOLoop) : option exn * IOLoop :=
  match a with
  | Callback cb =>
      match invoke cb L with
      | (inl _, L) => (None, L)
      | (inr e, L) => (Some e, L)
      end
  | PeriodicHandler interval cb => _periodic_handler interval cb L
  | DoScheduleIn when cb => (None, snd (_do_schedule_in when cb L))
  | DoSchedulePeriodically interval cb => (None, snd (_do_schedule_periodically interval cb L))
  end.

(** Modelled from the spec: what the underlying loop does with an exception
    from something it runs is to report it, not to stop. *)
Definition run_logged (a : action) (L : IOLoop) : IOLoop :=
  match run_action a L with
  | (None, L) => L
  | (Some e, L) =>
      mkIO (timeouts L) (callbacks L) (next_handle L) (time L)
           (run_thread L) (calls L) (errors L ++ [e])
  end.

(** The timeout that fires next: the earliest deadline, the first
    scheduled among equals. *)
Fixpoint earliest (best : timeout) (l : list timeout) : timeout :=
  match l with
  | [] => best
  | t :: l' => earliest (if Z.ltb (t_deadline t) (t_deadline best) then t else best) l'
  end.

(** Modelled from the spec: one turn of the underlying loop, which runs
    the oldest queued callback if there is one and otherwise lets time
    pass until the next timer entry fires, consuming it. *)
Definition step (L : IOLoop) : IOLoop :=
  match callbacks L with
  | a :: rest =>
      run_logged a (mkIO (timeouts L) rest (next_handle L) (time L)
                         (run_thread L) (calls L) (errors L))
  | [] =>
      match timeouts L with
      | [] => L
      | t0 :: ts =>
          let t := earliest t0 ts in
          run_logged (t_action t)
            (mkIO (filter (fun t' => t_handle t' ≠ t_handle t) (timeouts L))
                  [] (next_handle L) (Z.max (time L) (t_deadline t))
                  (run_thread L) (calls L) (errors L))
      end
  end.

Fixpoint steps (n : nat) (L : IOLoop) : IOLoop :=
  match n with
  | 0 => L
  | S n' => steps n' (step L)
  end.

(** Whether the outcome of a call ends a periodic task: a value equal to
    [False], or an exception. *)
Definition stops (o : value + exn) : bool :=
  match o with
  | inl result => py_eq result (VBool false)
  | inr _ => true
  end.

(** Whether an action calls the user callback [cb], now or later. *)
Definition mentions (cb : nat) (a : action) : bool :=
  match a with
  | Callback c | PeriodicHandler _ c | DoScheduleIn _ c | DoSchedulePeriodically _ c =>
      Nat.eqb c cb
  end.

(** No timer entry and no queued callback is for [cb]. *)
Definition unscheduled (cb : nat) (L : IOLoop) : Prop :=
  Forall (fun t => mentions cb (t_action t) = false) (timeouts L) /\
  Forall (fun a => mentions cb a = false) (callbacks L).

End Timers.


(** Nothing is scheduled and nothing is queued. *)
Definition idle (L : IOLoop) : Prop := timeouts L = [] /\ callbacks L = [].


(** The callback of the spec's example: [True] twice, then [False]. *)
Definition false_on_third (_ k : nat) : value + exn := inl (VBool (k <? 2)).

End Timer.

(** * Properties *)

(** ** Properties of [parallel] and of the trampoline *)

Module StoreFacts.

Ltac unfold_monad :=
  repeat (progress unfold bind, ret, raise, try_except, get_future, put_future,
            get_join, put_join, get_coro, put_coro).

Ltac reduce_store :=
  cbv beta iota;
  cbn [f_state f_callbacks gen_ return_future futures results result_future
       futs joins coros app_log set_futs set_joins set_coros].

Ltac elem_cases H :=
  repeat (apply elem_of_cons in H as [->|H]); [..|inversion H].

(** *** Occurrences and [list.remove] *)

Lemma occ_elem f (l : list fid) : f ∈ l <-> 0 < occ f l.
Proof.
  induction l as [|g l IH]; simpl.
  - split; [intros H; inversion H|lia].
  - rewrite elem_of_cons, IH. destruct (Nat.eqb_spec g f) as [->|Hne]; simpl.
    + split; [lia|auto].
    + split; [intros [Heq|H]; [congruence|lia]|intros H; right; lia].
Qed.

Lemma occ_filter_ne f g (l : list fid) :
  g ≠ f -> occ g (filter (fun x => x ≠ f) l) = occ g l.
Proof.
  intros Hne. induction l as [|x l IH]; simpl; [reflexivity|].
  destruct (decide (x ≠ f)) as [Hx|Hx].
  - rewrite filter_cons_True by exact Hx. simpl. rewrite IH. reflexivity.
  - rewrite filter_cons_False by exact Hx. rewrite IH.
    assert (x = f) by (destruct (decide (x = f)); [assumption|contradiction]). subst x.
    destruct (Nat.eqb_spec f g); [congruence|reflexivity].
Qed.

Lemma list_remove_future f (pend : list fid) :
  f ∈ pend ->
  exists pend',
    list_remove (VFuture f) (map VFuture pend) = Some (map VFuture pend') /\
    occ f pend = S (occ f pend') /\
    filter (fun x => x ≠ f) pend' = filter (fun x => x ≠ f) pend.
Proof.
  induction pend as [|g pend IH]; intros Hin; [inversion Hin|].
  simpl. destruct (Nat.eqb_spec g f) as [->|Hne].
  - exists pend. split; [reflexivity|]. split; [reflexivity|].
    rewrite filter_cons_False by (intros H; apply H; reflexivity). reflexivity.
  - apply elem_of_cons in Hin as [Heq|Hin]; [congruence|].
    destruct (IH Hin) as (pend' & Hrem & Hocc & Hfil).
    exists (g :: pend'). rewrite Hrem. split; [reflexivity|].
    simpl. destruct (Nat.eqb_spec g f); [congruence|]. split; [exact Hocc|].
    rewrite !filter_cons_True by exact Hne. rewrite Hfil. reflexivity.
Qed.

Lemma filter_ne_nil_occ f (l : list fid) :
  occ f l = 0 -> filter (fun x => x ≠ f) l = l.
Proof.
  induction l as [|g l IH]; simpl; [reflexivity|].
  destruct (Nat.eqb_spec g f); [lia|]. intros H.
  rewrite filter_cons_True by assumption. rewrite IH by lia. reflexivity.
Qed.

(** *** The handler [done] and the settlement of an input *)

Section Join.
Variable cl : callback -> fid -> M unit.

Lemma done_resolved j f h pend res rf v cbs :
  joins h !! j = Some (mkJoin (map VFuture pend) res rf) ->
  futs h !! f = Some (mkFuture (Resolved v) cbs) ->
  f ∈ pend ->
  exists pend',
    occ f pend = S (occ f pend') /\
    filter (fun x => x ≠ f) pend' = filter (fun x => x ≠ f) pend /\
    done cl j f h =
      let res' := odict_set (VFuture f) v res in
      let h1 := set_joins (<[j := mkJoin (map VFuture pend') res' rf]> (joins h)) h in
      match pend' with
      | [] => set_result cl rf (VList (map snd res')) h1
      | _ => Ok tt h1
      end.
Proof.
  intros Hj Hf Hin.
  destruct (list_remove_future f pend Hin) as (pend' & Hrem & Hocc & Hfil).
  exists pend'. split; [exact Hocc|]. split; [exact Hfil|].
  pose proof (lookup_lt_Some _ _ _ Hj) as Hlt.
  unfold done, bind, get_join. rewrite Hj. simpl. rewrite Hrem.
  unfold put_join, result, bind, get_future, ret. simpl. rewrite Hf. simpl.
  rewrite list_insert_insert_eq.
  rewrite list_lookup_insert_eq by exact Hlt. simpl.
  destruct pend'; reflexivity.
Qed.
End Join.

(** Storing a result twice is storing it once. *)
Lemma odict_set_future_idem f v (d : list (value * value)) :
  odict_set (VFuture f) v (odict_set (VFuture f) v d) = odict_set (VFuture f) v d.
Proof.
  induction d as [|[k' v'] d IH]; simpl.
  - rewrite Nat.eqb_refl. reflexivity.
  - destruct (py_eq k' (VFuture f)) eqn:E; simpl; rewrite E; [reflexivity|].
    rewrite IH. reflexivity.
Qed.

(** The callbacks of an input that occurs [S k] times among the pending
    inputs: [done] runs [S k] times, and only the last run can find the
    pending list empty. *)
Lemma run_dones n j f v rf k : forall pend res h,
  joins h !! j = Some (mkJoin (map VFuture pend) res rf) ->
  futs h !! f = Some (mkFuture (Resolved v) []) ->
  occ f pend = S k ->
  run_callbacks (call (S n)) (replicate (S k) (CbDone j)) f h =
    let res' := odict_set (VFuture f) v res in
    let h1 := set_joins (<[j := mkJoin (map VFuture (filter (fun x => x ≠ f) pend)) res' rf]> (joins h)) h in
    match filter (fun x => x ≠ f) pend with
    | [] => (logged (set_result (call n) rf (VList (map snd res'))) ;; ret tt) h1
    | _ => Ok tt h1
    end.
Proof.
  induction k as [|k IH]; intros pend res h Hj Hf Hocc.
  - assert (Hin : f ∈ pend) by (apply occ_elem; lia).
    destruct (done_resolved (call n) j f h pend res rf v [] Hj Hf Hin)
      as (pend' & Ho & Hfil & Hdone).
    assert (Hp : pend' = filter (fun x => x ≠ f) pend).
    { rewrite <- Hfil. symmetry. apply filter_ne_nil_occ. lia. }
    subst pend'. simpl replicate. unfold run_callbacks.
    change (call (S n) (CbDone j) f) with (done (call n) j f).
    unfold bind at 1, logged at 1, try_except at 1. rewrite Hdone. simpl.
    destruct (filter (fun x => x ≠ f) pend); [|reflexivity].
    unfold bind, logged, try_except. reflexivity.
  - assert (Hin : f ∈ pend) by (apply occ_elem; lia).
    destruct (done_resolved (call n) j f h pend res rf v [] Hj Hf Hin)
      as (pend' & Ho & Hfil & Hdone).
    assert (Hocc' : occ f pend' = S k) by lia.
    pose proof (lookup_lt_Some _ _ _ Hj) as Hlt.
    change (replicate (S (S k)) (CbDone j)) with (CbDone j :: replicate (S k) (CbDone j)).
    cbn [run_callbacks].
    change (call (S n) (CbDone j) f) with (done (call n) j f).
    unfold bind at 1, logged at 1, try_except at 1. rewrite Hdone. cbv zeta.
    destruct pend' as [|p q]; [simpl in Hocc'; lia|].
    rewrite (IH (p :: q) (odict_set (VFuture f) v res)
               (set_joins (<[j := mkJoin (map VFuture (p :: q)) (odict_set (VFuture f) v res) rf]> (joins h)) h)).
    + cbv zeta. rewrite odict_set_future_idem, Hfil. simpl joins.
      unfold set_joins; simpl. rewrite list_insert_insert_eq. reflexivity.
    + simpl. apply list_lookup_insert_eq. exact Hlt.
    + simpl. exact Hf.
    + exact Hocc'.
Qed.

(** Resolving a pending input of a join. *)
Lemma settle_input n j f h pend res rf v :
  joins h !! j = Some (mkJoin (map VFuture pend) res rf) ->
  futs h !! f = Some (mkFuture Pending (replicate (occ f pend) (CbDone j))) ->
  f ∈ pend ->
  set_result (call (S n)) f v h =
    let res' := odict_set (VFuture f) v res in
    let h1 := mkHeap (<[f := mkFuture (Resolved v) []]> (futs h))
                     (<[j := mkJoin (map VFuture (filter (fun x => x ≠ f) pend)) res' rf]> (joins h))
                     (coros h) (app_log h) in
    match filter (fun x => x ≠ f) pend with
    | [] => (logged (set_result (call n) rf (VList (map snd res'))) ;; ret tt) h1
    | _ => Ok tt h1
    end.
Proof.
  intros Hj Hf Hin.
  pose proof (lookup_lt_Some _ _ _ Hf) as Hlt.
  apply occ_elem in Hin. destruct (occ f pend) as [|k] eqn:Hocc; [lia|].
  unfold set_result, settle, bind at 1, get_future. rewrite Hf. cbn [f_state f_callbacks].
  unfold bind at 1, put_future.
  rewrite (run_dones n j f v rf k pend res); try assumption.
  - reflexivity.
  - simpl. apply list_lookup_insert_eq. exact Hlt.
Qed.

(** *** [uniq] and the ordered dictionary *)

Lemma uniq_elem f (l : list fid) : f ∈ uniq l <-> f ∈ l.
Proof.
  induction l as [|g l IH]; simpl; [reflexivity|].
  rewrite !elem_of_cons, list_elem_of_filter, IH.
  destruct (decide (f = g)); intuition.
Qed.

Lemma uniq_NoDup (l : list fid) : NoDup (uniq l).
Proof.
  induction l as [|g l IH]; simpl; constructor.
  - rewrite list_elem_of_filter. intros [H _]. apply H. reflexivity.
  - apply NoDup_filter, IH.
Qed.

Lemma filter_ne_notin g (l : list fid) : g ∉ l -> filter (fun x => x ≠ g) l = l.
Proof.
  induction l as [|x l IH]; intros Hg; [reflexivity|].
  apply not_elem_of_cons in Hg as [Hne Hg].
  rewrite filter_cons_True by congruence. rewrite IH by assumption. reflexivity.
Qed.

Lemma uniq_of_NoDup (l : list fid) : NoDup l -> uniq l = l.
Proof.
  induction 1 as [|g l Hg Hl IH]; simpl; [reflexivity|].
  rewrite IH, filter_ne_notin by assumption. reflexivity.
Qed.

Lemma uniq_length (l : list fid) : length (uniq l) <= length l.
Proof.
  induction l as [|g l IH]; simpl; [lia|].
  pose proof (length_filter (fun x => x ≠ g) (uniq l)). lia.
Qed.

Lemma uniq_shorter (l : list fid) : ~ NoDup l -> length (uniq l) < length l.
Proof.
  induction l as [|g l IH]; intros Hnd.
  - exfalso. apply Hnd. constructor.
  - simpl. destruct (decide (g ∈ l)) as [Hin|Hnin].
    + apply uniq_elem in Hin.
      pose proof (length_filter_lt (fun x => x ≠ g) (uniq l) g Hin) as Hlt.
      pose proof (uniq_length l) as Hul.
      assert (length (filter (fun x => x ≠ g) (uniq l)) < length (uniq l)).
      { apply Hlt. intros Hq. apply Hq. reflexivity. }
      lia.
    + assert (Hl : ~ NoDup l) by (intros H; apply Hnd; constructor; assumption).
      specialize (IH Hl).
      pose proof (length_filter (fun x => x ≠ g) (uniq l)). lia.
Qed.


Lemma odict_set_absent g v val (ks : list fid) :
  g ∉ ks ->
  odict_set (VFuture g) v (map (entry val) ks) = map (entry val) ks ++ [(VFuture g, v)].
Proof.
  induction ks as [|k ks IH]; intros Hg; simpl; [reflexivity|].
  apply not_elem_of_cons in Hg as [Hne Hg].
  destruct (Nat.eqb_spec k g); [congruence|]. rewrite IH by assumption. reflexivity.
Qed.

Lemma odict_set_present g v val (ks : list fid) :
  NoDup ks -> g ∈ ks ->
  odict_set (VFuture g) v (map (entry val) ks)
  = map (entry (fun f => if decide (f = g) then v else val f)) ks.
Proof.
  unfold entry.
  induction 1 as [|k ks Hk Hks IH]; intros Hg; [inversion Hg|].
  cbn [map odict_set py_eq].
  destruct (Nat.eqb_spec k g) as [->|Hne].
  - rewrite decide_True by reflexivity. f_equal.
    apply map_ext_in. intros f Hf.
    rewrite decide_False; [reflexivity|].
    intros ->. apply Hk. apply list_elem_of_In. exact Hf.
  - apply elem_of_cons in Hg as [Heq|Hg]; [congruence|].
    rewrite IH by assumption.
    rewrite decide_False by assumption. reflexivity.
Qed.

Lemma odict_fromkeys_acc (fs : list fid) : forall ks0 : list fid,
  NoDup ks0 ->
  foldl (fun d k => odict_set k VNone d) (map (entry (fun _ => VNone)) ks0) (map VFuture fs)
  = map (entry (fun _ => VNone)) (ks0 ++ filter (fun f => f ∉ ks0) (uniq fs)).
Proof.
  induction fs as [|f fs IH]; intros ks0 Hnd; simpl.
  - rewrite filter_nil, app_nil_r. reflexivity.
  - destruct (decide (f ∈ ks0)) as [Hin|Hnin].
    + rewrite odict_set_present by assumption.
      rewrite (map_ext (entry _) (entry (fun _ => VNone))).
      2:{ intros a. unfold entry. destruct (decide (a = f)); reflexivity. }
      rewrite IH by assumption. f_equal. f_equal.
      rewrite filter_cons_False by (intros H; apply H; exact Hin).
      rewrite list_filter_filter. apply list_filter_iff.
      intros x. simpl. split; [|intros [Hx _]; exact Hx].
      intros Hx. split; [exact Hx|]. intros ->. contradiction.
    + rewrite odict_set_absent by assumption.
      change [(VFuture f, VNone)] with (map (entry (fun _ => VNone)) [f]).
      rewrite <- map_app. rewrite IH.
      2:{ apply NoDup_app. split; [assumption|]. split; [|apply NoDup_singleton].
          intros x Hx Hx'. apply list_elem_of_singleton in Hx'. subst. contradiction. }
      f_equal. rewrite <- app_assoc. f_equal. simpl.
      rewrite filter_cons_True by assumption. f_equal.
      rewrite list_filter_filter. apply list_filter_iff.
      intros x. simpl. rewrite elem_of_app, list_elem_of_singleton.
      split; [intros Hx; split; intros Hc; apply Hx; [left|right]; exact Hc|].
      intros [Ha Hb] [Hc|Hc]; contradiction.
Qed.

Lemma odict_fromkeys_futures (fs : list fid) :
  odict_fromkeys (map VFuture fs) = map (entry (fun _ => VNone)) (uniq fs).
Proof.
  unfold odict_fromkeys.
  pose proof (odict_fromkeys_acc fs [] (@NoDup_nil_2 fid)) as Hacc.
  cbn [map app] in Hacc. rewrite Hacc. clear Hacc. f_equal.
  induction (uniq fs) as [|x l IH]; [reflexivity|].
  rewrite filter_cons_True by (intros H; inversion H). rewrite IH. reflexivity.
Qed.



Lemma results_after_entries r (ord : list fid) : forall val (ks : list fid),
  NoDup ks -> (forall g, g ∈ ord -> g ∈ ks) ->
  results_after (map (entry val) ks) ord r
  = map (entry (fun f => if decide (f ∈ ord) then r f else val f)) ks.
Proof.
  induction ord as [|g ord IH]; intros val ks Hnd Hsub.
  - unfold results_after. cbn [foldl]. apply map_ext. intros f. unfold entry.
    rewrite decide_False by (intros H; inversion H). reflexivity.
  - unfold results_after in *. cbn [foldl].
    rewrite odict_set_present by (auto; apply Hsub; left).
    rewrite IH by (auto; intros x Hx; apply Hsub; right; exact Hx).
    apply map_ext. intros f. unfold entry. f_equal.
    destruct (decide (f ∈ ord)) as [Hin|Hnin].
    + rewrite decide_True by (right; exact Hin). reflexivity.
    + destruct (decide (f = g)) as [->|Hne].
      * rewrite decide_True by left. reflexivity.
      * rewrite decide_False; [reflexivity|].
        intros Hc. apply elem_of_cons in Hc as [Hc|Hc]; contradiction.
Qed.

Lemma results_after_fromkeys r (fs ord : list fid) :
  (forall g, g ∈ ord <-> g ∈ fs) ->
  map snd (results_after (odict_fromkeys (map VFuture fs)) ord r) = map r (uniq fs).
Proof.
  intros Hord. rewrite odict_fromkeys_futures.
  rewrite results_after_entries.
  - rewrite map_map. apply map_ext_in. intros f Hf. unfold entry. simpl.
    rewrite decide_True; [reflexivity|].
    apply Hord, uniq_elem, list_elem_of_In, Hf.
  - apply uniq_NoDup.
  - intros g Hg. apply uniq_elem, Hord, Hg.
Qed.

Lemma resolved_futs_length r (ord : list fid) : forall F, length (resolved_futs F ord r) = length F.
Proof.
  induction ord as [|g ord IH]; intros F; simpl; [reflexivity|].
  unfold resolved_futs in *. simpl. rewrite IH, length_insert. reflexivity.
Qed.

Lemma resolved_futs_other r (ord : list fid) g : forall F,
  g ∉ ord -> resolved_futs F ord r !! g = F !! g.
Proof.
  induction ord as [|x ord IH]; intros F Hg; simpl; [reflexivity|].
  apply not_elem_of_cons in Hg as [Hne Hg].
  unfold resolved_futs in *. simpl. rewrite IH by assumption.
  apply list_lookup_insert_ne. congruence.
Qed.

Lemma bind_ret_tt (m : M unit) (h : heap) : (m ;; ret tt ;; ret tt) h = (m ;; ret tt) h.
Proof. unfold bind, ret. destruct (m h); reflexivity. Qed.

(** Resolving all pending inputs of a join, in any order: the last
    settlement sets the result of the join future. *)
Lemma join_completes n j rf r (ord : list fid) : forall pend res h,
  NoDup ord -> (forall g, g ∈ ord <-> g ∈ pend) -> ord ≠ [] ->
  joins h !! j = Some (mkJoin (map VFuture pend) res rf) ->
  (forall g, g ∈ pend ->
     futs h !! g = Some (mkFuture Pending (replicate (occ g pend) (CbDone j)))) ->
  resolve_all (S n) ord r h =
    (logged (set_result (call n) rf (VList (map snd (results_after res ord r)))) ;; ret tt)
      (mkHeap (resolved_futs (futs h) ord r)
              (<[j := mkJoin [] (results_after res ord r) rf]> (joins h))
              (coros h) (app_log h)).
Proof.
  induction ord as [|f ord IH]; intros pend res h Hnd Hord Hne Hj Hp; [congruence|].
  apply NoDup_cons in Hnd as [Hf Hnd].
  assert (Hin : f ∈ pend) by (apply Hord; left).
  cbn [resolve_all]. unfold bind at 1.
  rewrite (settle_input n j f h pend res rf (r f) Hj (Hp f Hin) Hin). cbv zeta.
  assert (Hord' : forall g, g ∈ ord <-> g ∈ filter (fun x => x ≠ f) pend).
  { intros g. rewrite list_elem_of_filter, <- Hord, elem_of_cons. split.
    - intros Hg. split; [intros ->; contradiction|right; exact Hg].
    - intros [Hgf [Hg|Hg]]; [contradiction|exact Hg]. }
  pose proof (lookup_lt_Some _ _ _ Hj) as Hlt.
  destruct ord as [|g ord].
  - destruct (filter (fun x => x ≠ f) pend) as [|x l] eqn:Efil.
    + cbn [resolve_all]. unfold resolved_futs, results_after. cbn [foldl map].
      match goal with |- match ?m ?h with _ => _ end = _ =>
        change (((m ;; ret tt) h) = (m h)) end.
      unfold bind, ret.
      match goal with |- context [logged ?a ?b] => destruct (logged a b) as [[] ?| | |] end;
        reflexivity.
    + exfalso. assert (Hx : x ∈ []) by (apply Hord'; left). inversion Hx.
  - destruct (filter (fun x => x ≠ f) pend) as [|x l] eqn:Efil.
    + exfalso. assert (Hx : g ∈ []) by (apply Hord'; left). inversion Hx.
    + rewrite <- Efil in *.
      rewrite (IH (filter (fun x => x ≠ f) pend) (odict_set (VFuture f) (r f) res)); try assumption.
      * cbn [futs joins coros app_log]. unfold resolved_futs, results_after. cbn [foldl].
        rewrite list_insert_insert_eq. reflexivity.
      * discriminate.
      * cbn [joins]. apply list_lookup_insert_eq. exact Hlt.
      * intros y Hy. cbn [futs]. apply list_elem_of_filter in Hy as [Hyf Hy].
        rewrite list_lookup_insert_ne by congruence.
        rewrite occ_filter_ne by assumption. apply Hp, Hy.
Qed.


(** *** The registration loop of [parallel] *)

Lemma forallb_hashable_futures (fs : list fid) : forallb hashable (map VFuture fs) = true.
Proof. induction fs as [|f fs IH]; simpl; auto. Qed.

Lemma occ_cons_eq f (l : list fid) : occ f (f :: l) = S (occ f l).
Proof. simpl. rewrite Nat.eqb_refl. reflexivity. Qed.

Lemma occ_cons_ne f g (l : list fid) : g ≠ f -> occ f (g :: l) = occ f l.
Proof. intros Hne. simpl. destruct (Nat.eqb_spec g f); [congruence|reflexivity]. Qed.

Section Register.
Variable cl : callback -> fid -> M unit.

(** On pending inputs the loop visits every position and registers [done]
    once per occurrence. *)
Lemma for_futures_pending j J (fs : list fid) k : forall i h,
  joins h !! j = Some J -> futures J = map VFuture fs -> i + k = length fs ->
  (forall f, f ∈ fs -> exists cbs, futs h !! f = Some (mkFuture Pending cbs)) ->
  exists F',
    for_futures cl j k i h = Ok tt (set_futs F' h) /\
    length F' = length (futs h) /\
    forall f, F' !! f
              = with_callbacks (replicate (occ f (drop i fs)) (CbDone j)) <$> (futs h !! f).
Proof.
  induction k as [|k IH]; intros i h Hj HJ Hik Hp.
  - exists (futs h). split; [destruct h; reflexivity|]. split; [reflexivity|].
    intros f. rewrite drop_ge by lia. simpl.
    destruct (futs h !! f) as [[st cbs]|]; [|reflexivity].
    simpl. unfold with_callbacks. simpl. rewrite app_nil_r. reflexivity.
  - destruct (lookup_lt_is_Some_2 fs i ltac:(lia)) as [f0 Hf0].
    assert (Hin0 : f0 ∈ fs) by (eapply list_elem_of_lookup_2; exact Hf0).
    destruct (Hp f0 Hin0) as [cbs0 Hcbs0].
    pose proof (lookup_lt_Some _ _ _ Hcbs0) as Hlt0.
    set (h1 := set_futs (<[f0 := mkFuture Pending (cbs0 ++ [CbDone j])]> (futs h)) h).
    destruct (IH (S i) h1) as (F' & Hrun & Hlen & Hlook).
    + exact Hj.
    + exact HJ.
    + lia.
    + intros f Hf. destruct (decide (f = f0)) as [->|Hne].
      * exists (cbs0 ++ [CbDone j]). simpl. apply list_lookup_insert_eq. exact Hlt0.
      * destruct (Hp f Hf) as [cbs Hcbs]. exists cbs. simpl.
        rewrite list_lookup_insert_ne by congruence. exact Hcbs.
    + exists F'. split; [|split].
      * cbn [for_futures]. unfold bind at 1, get_join. rewrite Hj.
        rewrite HJ, list_lookup_fmap, Hf0. cbn [fmap option_fmap option_map].
        unfold bind at 1. unfold value_add_done_callback, add_done_callback, bind at 1, get_future.
        rewrite Hcbs0. cbn [f_state f_callbacks]. unfold put_future.
        fold h1. rewrite Hrun. reflexivity.
      * rewrite Hlen. simpl. apply length_insert.
      * intros f. rewrite Hlook. cbn [futs h1 set_futs].
        rewrite (drop_S fs f0 i Hf0).
        destruct (decide (f = f0)) as [->|Hne].
        -- rewrite list_lookup_insert_eq by exact Hlt0. rewrite Hcbs0, occ_cons_eq.
           simpl. unfold with_callbacks. simpl. rewrite <- app_assoc. reflexivity.
        -- rewrite list_lookup_insert_ne by congruence.
           rewrite occ_cons_ne by congruence. reflexivity.
Qed.

Lemma parallel_pending (fs : list fid) h :
  (forall f, f ∈ fs -> exists cbs, futs h !! f = Some (mkFuture Pending cbs)) ->
  exists F',
    parallel cl (map VFuture fs) h
    = Ok (length (futs h))
        (mkHeap F'
           (joins h ++ [mkJoin (map VFuture fs) (odict_fromkeys (map VFuture fs)) (length (futs h))])
           (coros h) (app_log h)) /\
    length F' = S (length (futs h)) /\
    F' !! length (futs h) = Some (mkFuture Pending []) /\
    forall f, f < length (futs h) ->
      F' !! f = with_callbacks (replicate (occ f fs) (CbDone (length (joins h)))) <$> (futs h !! f).
Proof.
  intros Hp.
  set (rf := length (futs h)). set (j := length (joins h)).
  set (J := mkJoin (map VFuture fs) (odict_fromkeys (map VFuture fs)) rf).
  set (h1 := mkHeap (futs h ++ [mkFuture Pending []]) (joins h ++ [J]) (coros h) (app_log h)).
  destruct (for_futures_pending j J fs (length fs) 0 h1) as (F' & Hrun & Hlen & Hlook).
  - simpl. apply list_lookup_middle. reflexivity.
  - reflexivity.
  - lia.
  - intros f Hf. destruct (Hp f Hf) as [cbs Hcbs]. exists cbs. simpl.
    rewrite lookup_app_l by (eapply lookup_lt_Some; exact Hcbs). exact Hcbs.
  - exists F'. split; [|split; [|split]].
    + unfold parallel, bind at 1, new_future.
      unfold bind at 1. rewrite forallb_hashable_futures. unfold ret at 1.
      unfold bind at 1, new_join. cbn [joins set_futs set_joins futs coros app_log].
      rewrite length_map. unfold bind at 1. fold rf j J.
      change (set_joins (joins h ++ [J]) (set_futs (futs h ++ [mkFuture Pending []]) h)) with h1.
      rewrite Hrun. reflexivity.
    + rewrite Hlen. simpl. rewrite length_app. simpl. lia.
    + assert (Hocc : occ rf fs = 0).
      { destruct (occ rf fs) eqn:E; [reflexivity|]. exfalso.
        assert (Hin : rf ∈ fs) by (apply occ_elem; lia).
        destruct (Hp rf Hin) as [cbs Hcbs]. apply lookup_lt_Some in Hcbs. unfold rf in Hcbs. lia. }
      rewrite Hlook. rewrite drop_0, Hocc. cbn [futs h1].
      rewrite list_lookup_middle by reflexivity. reflexivity.
    + intros f Hf. rewrite Hlook. rewrite drop_0. cbn [futs h1].
      rewrite lookup_app_l by exact Hf. reflexivity.
Qed.
End Register.

(** *** [parallel] followed by the resolution of its inputs *)

Lemma set_result_no_callbacks cl rf v h :
  futs h !! rf = Some (mkFuture Pending []) ->
  set_result cl rf v h = Ok tt (set_futs (<[rf := mkFuture (Resolved v) []]> (futs h)) h).
Proof.
  intros Hrf. unfold set_result, settle, bind, get_future. rewrite Hrf. reflexivity.
Qed.

Lemma parallel_then_resolve n (fs ord : list fid) r h :
  fs ≠ [] -> (forall f, f ∈ fs -> fresh h f) ->
  NoDup ord -> (forall f, f ∈ ord <-> f ∈ fs) ->
  exists h1 h2,
    parallel (call (S n)) (map VFuture fs) h = Ok (length (futs h)) h1 /\
    futs h1 !! length (futs h) = Some (mkFuture Pending []) /\
    resolve_all (S n) ord r h1 = Ok tt h2 /\
    futs h2 !! length (futs h) = Some (mkFuture (Resolved (VList (map r (uniq fs)))) []).
Proof.
  intros Hne Hfresh Hnd Hord.
  destruct (parallel_pending (call (S n)) fs h) as (F' & Hpar & Hlen & Hrf & Hlook).
  { intros f Hf. exists []. apply Hfresh, Hf. }
  eexists. eexists. split; [exact Hpar|]. split; [exact Hrf|].
  assert (Hordne : ord ≠ []).
  { destruct fs as [|f fs]; [congruence|]. intros ->.
    assert (Hx : f ∈ []) by (apply Hord; left). inversion Hx. }
  assert (Hrfnot : length (futs h) ∉ ord).
  { intros Hin. apply Hord, Hfresh in Hin. apply lookup_lt_Some in Hin. lia. }
  rewrite (join_completes n (length (joins h)) (length (futs h)) r ord fs
             (odict_fromkeys (map VFuture fs))); try assumption.
  - cbn [futs joins coros app_log]. rewrite results_after_fromkeys by assumption.
    unfold bind, logged, try_except.
    rewrite set_result_no_callbacks.
    + split; [reflexivity|]. cbn [futs set_futs].
      apply list_lookup_insert_eq. rewrite resolved_futs_length. lia.
    + cbn [futs]. rewrite resolved_futs_other by assumption. exact Hrf.
  - cbn [joins]. apply list_lookup_middle. reflexivity.
  - intros g Hg. cbn [futs]. pose proof (Hfresh g Hg) as Hfg. unfold fresh in Hfg.
    rewrite Hlook by (eapply lookup_lt_Some; exact Hfg). rewrite Hfg. reflexivity.
Qed.

(** C10: when a future occurs more than once among the inputs of
    [parallel] (all pending when it is called) and all inputs resolve, in
    any order, the join resolves to one result per distinct input future,
    each at the position of its first occurrence: a list shorter than the
    number of inputs. *)
Theorem parallel_one_entry_per_distinct_future n (fs ord : list fid) r h :
  fs ≠ [] -> (forall f, f ∈ fs -> fresh h f) ->
  NoDup ord -> (forall f, f ∈ ord <-> f ∈ fs) ->
  exists h1 h2,
    parallel (call (S n)) (map VFuture fs) h = Ok (length (futs h)) h1 /\
    resolve_all (S n) ord r h1 = Ok tt h2 /\
    futs h2 !! length (futs h) = Some (mkFuture (Resolved (VList (map r (uniq fs)))) []) /\
    NoDup (uniq fs) /\ (forall f, f ∈ uniq fs <-> f ∈ fs) /\
    (~ NoDup fs -> length (map r (uniq fs)) < length fs).
Proof.
  intros Hne Hfresh Hnd Hord.
  destruct (parallel_then_resolve n fs ord r h Hne Hfresh Hnd Hord)
    as (h1 & h2 & Hpar & _ & Hres & Hfin).
  exists h1, h2. repeat split; try assumption.
  - apply uniq_NoDup.
  - apply uniq_elem.
  - apply uniq_elem.
  - intros Hdup. rewrite length_map. apply uniq_shorter, Hdup.
Qed.

(** When the inputs of [parallel] are pairwise distinct, at least one, and
    all pending at the call, the join resolves to their results in input
    order, whatever the order in which they resolve. *)
Theorem parallel_pending_inputs_in_input_order n (fs ord : list fid) r h :
  fs ≠ [] -> NoDup fs -> (forall f, f ∈ fs -> fresh h f) -> ord ≡ₚ fs ->
  exists h1 h2,
    parallel (call (S n)) (map VFuture fs) h = Ok (length (futs h)) h1 /\
    futs h1 !! length (futs h) = Some (mkFuture Pending []) /\
    resolve_all (S n) ord r h1 = Ok tt h2 /\
    futs h2 !! length (futs h) = Some (mkFuture (Resolved (VList (map r fs))) []).
Proof.
  intros Hne Hnd Hfresh Hperm.
  destruct (parallel_then_resolve n fs ord r h Hne Hfresh) as (h1 & h2 & H1 & H2 & H3 & H4).
  - rewrite Hperm. exact Hnd.
  - intros f. rewrite Hperm. reflexivity.
  - exists h1, h2. rewrite uniq_of_NoDup in H4 by assumption. auto.
Qed.

(** *** One turn of the trampoline *)

Section Trampoline.
Variable cl : callback -> fid -> M unit.

(** [handle_future] and [wrapper] are [advance] along the continuation
    the settled future selects. *)
Lemma handle_future_resolved c f h send throw rf v cbs :
  coros h !! c = Some (mkCoroutine (GenSuspended send throw) rf) ->
  futs h !! f = Some (mkFuture (Resolved v) cbs) ->
  handle_future cl c f h = advance cl c (send v) h.
Proof.
  intros Hc Hf.
  unfold handle_future, advance, exception, result, gen_send. unfold_monad.
  rewrite Hc; reduce_store. rewrite Hf; reduce_store.
  rewrite Hf; reduce_store. rewrite Hc; reduce_store. reflexivity.
Qed.

Lemma handle_future_failed c f h send throw rf e cbs :
  coros h !! c = Some (mkCoroutine (GenSuspended send throw) rf) ->
  futs h !! f = Some (mkFuture (Failed e) cbs) ->
  handle_future cl c f h = advance cl c (throw e) h.
Proof.
  intros Hc Hf.
  unfold handle_future, advance, exception, result, gen_throw. unfold_monad.
  rewrite Hc; reduce_store. rewrite Hf; reduce_store.
  rewrite Hc; reduce_store. reflexivity.
Qed.

Lemma wrapper_advance g h :
  wrapper cl g h
  = (advance cl (length (coros h)) g ;; ret (length (futs h)))
      (mkHeap (futs h ++ [mkFuture Pending []]) (joins h)
              (coros h ++ [mkCoroutine (GenCreated g) (length (futs h))]) (app_log h)).
Proof.
  unfold wrapper, advance, new_future, new_coro, gen_next. unfold_monad. reduce_store.
  rewrite list_lookup_middle by reflexivity. reduce_store.
  reflexivity.
Qed.

Lemma advance_raise c st rf e h :
  coros h !! c = Some (mkCoroutine st rf) -> fresh h rf -> is_Exception e = true ->
  advance cl c (GRaise e) h
  = Ok tt (mkHeap (<[rf := mkFuture (final_state e) []]> (futs h)) (joins h)
                  (<[c := mkCoroutine GenFinished rf]> (coros h)) (app_log h)).
Proof.
  intros Hc Hrf He. unfold advance, resume. unfold_monad.
  rewrite Hc; reduce_store.
  unfold on_exception. destruct e; try discriminate He; cbn [is_Exception final_state];
    unfold set_result, set_exception, settle; unfold_monad; reduce_store;
    rewrite Hrf; reflexivity.
Qed.

Lemma advance_yield_future c st rf f send throw h :
  coros h !! c = Some (mkCoroutine st rf) -> fresh h f ->
  advance cl c (GYield (VFuture f) send throw) h
  = Ok tt (mkHeap (<[f := mkFuture Pending [CbHandleFuture c]]> (futs h)) (joins h)
                  (<[c := mkCoroutine (GenSuspended send throw) rf]> (coros h)) (app_log h)).
Proof.
  intros Hc Hf. unfold advance, resume, await, value_add_done_callback, add_done_callback.
  unfold_monad. rewrite Hc; reduce_store. rewrite Hf; reduce_store. reflexivity.
Qed.

Lemma advance_yield_tuple c st rf (fs : list fid) send throw h :
  coros h !! c = Some (mkCoroutine st rf) -> (forall f, f ∈ fs -> fresh h f) ->
  exists F',
    advance cl c (GYield (VTuple (map VFuture fs)) send throw) h
    = Ok tt (mkHeap (<[length (futs h) := mkFuture Pending [CbHandleFuture c]]> F')
               (joins h ++ [mkJoin (map VFuture fs) (odict_fromkeys (map VFuture fs))
                                   (length (futs h))])
               (<[c := mkCoroutine (GenSuspended send throw) rf]> (coros h)) (app_log h)) /\
    length F' = S (length (futs h)) /\
    forall f, f < length (futs h) ->
      F' !! f = with_callbacks (replicate (occ f fs) (CbDone (length (joins h)))) <$> (futs h !! f).
Proof.
  intros Hc Hfs.
  set (h0 := set_coros (<[c := mkCoroutine (GenSuspended send throw) rf]> (coros h)) h).
  destruct (parallel_pending cl fs h0) as (F' & Hpar & Hlen & Hrf & Hlook).
  { intros f Hf. exists []. apply Hfs, Hf. }
  exists F'. split; [|split; [exact Hlen|exact Hlook]].
  unfold advance, resume, await. unfold_monad. rewrite Hc; reduce_store.
  fold h0. rewrite Hpar; reduce_store.
  unfold value_add_done_callback, add_done_callback. unfold_monad. reduce_store.
  rewrite Hrf. reflexivity.
Qed.

End Trampoline.

Lemma as_futures_Some (elems : list value) : forall fs : list fid,
  as_futures elems = Some fs -> elems = map VFuture fs.
Proof.
  induction elems as [|x elems IH]; intros fs H; simpl in H.
  - injection H as <-. reflexivity.
  - destruct x; try discriminate H.
    destruct (as_futures elems) as [fs'|]; [|discriminate H].
    injection H as <-. simpl. rewrite <- (IH fs' eq_refl). reflexivity.
Qed.

Lemma logged_ok (m : M unit) h h' :
  m h = Ok tt h' -> (logged m ;; ret tt) h = Ok tt h'.
Proof. intros Hm. unfold logged. unfold_monad. rewrite Hm. reflexivity. Qed.

Lemma logged_logged (m : M unit) h :
  (logged (logged m ;; ret tt) ;; ret tt) h = (logged m ;; ret tt) h.
Proof.
  unfold logged. unfold_monad. destruct (m h) as [[] h'|e h'| |]; try reflexivity.
  destruct (is_Exception e) eqn:He; [reflexivity|]. cbv beta iota. rewrite He. reflexivity.
Qed.

Lemma settle_single_callback fuel f st c h :
  futs h !! f = Some (mkFuture Pending [CbHandleFuture c]) ->
  settle (call (S fuel)) f st h
  = (logged (handle_future (call fuel) c f) ;; ret tt)
      (set_futs (<[f := mkFuture st []]> (futs h)) h).
Proof.
  intros Hf. unfold settle. unfold_monad. rewrite Hf; reduce_store.
  cbn [run_callbacks call]. unfold_monad. reflexivity.
Qed.

(** *** An await and its settlement *)

Section Steps.
Variables (n c rf : nat).

Lemma step_settles st f o send throw h cl :
  coros h !! c = Some (mkCoroutine st rf) -> fresh h f ->
  exists h1 h1',
    advance cl c (GYield (VFuture f) send throw) h = Ok tt h1 /\
    settle_with (S (S n)) f o h1
    = (logged (advance (call (S n)) c (match o with inl v => send v | inr e => throw e end))
       ;; ret tt) h1' /\
    (exists st', coros h1' !! c = Some (mkCoroutine st' rf)) /\
    (forall g, g ≠ f -> futs h1 !! g = futs h !! g) /\
    (forall g, g ≠ f -> futs h1' !! g = futs h !! g).
Proof.
  intros Hc Hf.
  pose proof (lookup_lt_Some _ _ _ Hc) as Hclt.
  pose proof (lookup_lt_Some _ _ _ Hf) as Hflt.
  set (h1 := mkHeap (<[f := mkFuture Pending [CbHandleFuture c]]> (futs h)) (joins h)
               (<[c := mkCoroutine (GenSuspended send throw) rf]> (coros h)) (app_log h)).
  assert (Hf1 : futs h1 !! f = Some (mkFuture Pending [CbHandleFuture c])).
  { apply list_lookup_insert_eq. exact Hflt. }
  assert (Hc1 : coros h1 !! c = Some (mkCoroutine (GenSuspended send throw) rf)).
  { apply list_lookup_insert_eq. exact Hclt. }
  exists h1.
  exists (set_futs (<[f := mkFuture (match o with inl v => Resolved v | inr e => Failed e end) []]>
                      (futs h1)) h1).
  split; [apply (advance_yield_future cl c st rf f send throw h Hc Hf)|].
  split; [|split; [|split]].
  - destruct o as [v|e]; cbn [settle_with]; unfold set_result, set_exception;
      rewrite (settle_single_callback (S n) f _ c h1 Hf1);
      unfold logged; unfold_monad.
    + erewrite handle_future_resolved; [reflexivity|exact Hc1|].
      cbn [futs set_futs]. apply list_lookup_insert_eq.
      eapply lookup_lt_Some. exact Hf1.
    + erewrite handle_future_failed; [reflexivity|exact Hc1|].
      cbn [futs set_futs]. apply list_lookup_insert_eq.
      eapply lookup_lt_Some. exact Hf1.
  - eexists. exact Hc1.
  - intros g Hg. cbn [futs h1]. apply list_lookup_insert_ne. congruence.
  - intros g Hg. cbn [futs h1 set_futs]. rewrite !list_lookup_insert_ne by congruence.
    reflexivity.
Qed.

Lemma step_tuple st (fs ord : list fid) r send throw h cl :
  coros h !! c = Some (mkCoroutine st rf) ->
  (forall f, f ∈ fs -> fresh h f) -> fs ≠ [] ->
  NoDup ord -> (forall f, f ∈ ord <-> f ∈ fs) ->
  exists h1 h1',
    advance cl c (GYield (VTuple (map VFuture fs)) send throw) h = Ok tt h1 /\
    (futs h1 !! length (futs h) = Some (mkFuture Pending [CbHandleFuture c]) /\
     joins h1 !! length (joins h)
     = Some (mkJoin (map VFuture fs) (odict_fromkeys (map VFuture fs)) (length (futs h))) /\
     forall f, f ∈ fs ->
       futs h1 !! f = Some (mkFuture Pending (replicate (occ f fs) (CbDone (length (joins h)))))) /\
    resolve_all (S (S n)) ord r h1
    = (logged (advance (call n) c (send (VList (map r (uniq fs))))) ;; ret tt) h1' /\
    (exists st', coros h1' !! c = Some (mkCoroutine st' rf)) /\
    (forall g, g ∉ fs -> g < length (futs h) -> futs h1 !! g = futs h !! g) /\
    (forall g, g ∉ fs -> g < length (futs h) -> futs h1' !! g = futs h !! g).
Proof.
  intros Hc Hfs Hne Hnd Hord.
  pose proof (lookup_lt_Some _ _ _ Hc) as Hclt.
  destruct (advance_yield_tuple cl c st rf fs send throw h Hc Hfs) as (F' & Hadv & Hlen & Hlook).
  set (rfj := length (futs h)) in *. set (j := length (joins h)) in *.
  set (J := mkJoin (map VFuture fs) (odict_fromkeys (map VFuture fs)) rfj) in *.
  set (h1 := mkHeap (<[rfj := mkFuture Pending [CbHandleFuture c]]> F') (joins h ++ [J])
               (<[c := mkCoroutine (GenSuspended send throw) rf]> (coros h)) (app_log h)) in *.
  assert (Hrfj : futs h1 !! rfj = Some (mkFuture Pending [CbHandleFuture c])).
  { apply list_lookup_insert_eq. lia. }
  assert (Hj : joins h1 !! j = Some J) by (apply list_lookup_middle; reflexivity).
  assert (Hlt : forall f, f ∈ fs -> f < rfj).
  { intros f Hf. apply Hfs in Hf. apply lookup_lt_Some in Hf. exact Hf. }
  assert (Hp : forall f, f ∈ fs ->
             futs h1 !! f = Some (mkFuture Pending (replicate (occ f fs) (CbDone j)))).
  { intros f Hf. pose proof (Hlt f Hf). cbn [futs h1].
    rewrite list_lookup_insert_ne by lia. rewrite Hlook by assumption.
    rewrite (Hfs f Hf). reflexivity. }
  assert (Hordne : ord ≠ []).
  { destruct fs as [|f fs']; [congruence|]. intros ->.
    assert (Hx : f ∈ []) by (apply Hord; left). inversion Hx. }
  assert (Hrfjnot : rfj ∉ ord).
  { intros Hin. apply Hord, Hlt in Hin. lia. }
  set (V := VList (map r (uniq fs))).
  set (hfin := mkHeap (resolved_futs (futs h1) ord r)
                 (<[j := mkJoin [] (results_after (odict_fromkeys (map VFuture fs)) ord r) rfj]> (joins h1))
                 (coros h1) (app_log h1)).
  assert (Hfinrfj : futs hfin !! rfj = Some (mkFuture Pending [CbHandleFuture c])).
  { cbn [futs hfin]. rewrite resolved_futs_other by assumption. exact Hrfj. }
  exists h1, (set_futs (<[rfj := mkFuture (Resolved V) []]> (futs hfin)) hfin).
  split; [exact Hadv|]. split; [auto|].
  split; [|split; [|split]].
  - rewrite (join_completes (S n) j rfj r ord fs (odict_fromkeys (map VFuture fs)) h1
               Hnd Hord Hordne Hj Hp).
    rewrite results_after_fromkeys by assumption. fold V. fold hfin.
    unfold set_result. 
    transitivity ((logged (logged (handle_future (call n) c rfj) ;; ret tt) ;; ret tt)
                    (set_futs (<[rfj := mkFuture (Resolved V) []]> (futs hfin)) hfin)).
    { unfold logged at 1 3. unfold_monad.
      rewrite (settle_single_callback n rfj (Resolved V) c hfin Hfinrfj). reflexivity. }
    rewrite logged_logged. unfold logged. unfold_monad.
    erewrite handle_future_resolved; [reflexivity| |].
    + cbn [coros set_futs hfin h1]. apply list_lookup_insert_eq. exact Hclt.
    + cbn [futs set_futs]. apply list_lookup_insert_eq.
      eapply lookup_lt_Some. exact Hfinrfj.
  - eexists. cbn [coros set_futs hfin h1]. apply list_lookup_insert_eq. exact Hclt.
  - intros g Hg Hglt. cbn [futs h1]. rewrite list_lookup_insert_ne by lia.
    rewrite Hlook by assumption.
    assert (Hocc : occ g fs = 0).
    { destruct (occ g fs) eqn:E; [reflexivity|]. exfalso. apply Hg, occ_elem. lia. }
    rewrite Hocc. destruct (futs h !! g) as [[s0 cbs0]|]; [|reflexivity].
    unfold with_callbacks. simpl. rewrite app_nil_r. reflexivity.
  - intros g Hg Hglt. cbn [futs set_futs hfin h1].
    rewrite list_lookup_insert_ne by lia.
    rewrite resolved_futs_other by (intros Hin; apply Hg, Hord, Hin).
    rewrite list_lookup_insert_ne by lia.
    rewrite Hlook by assumption.
    assert (Hocc : occ g fs = 0).
    { destruct (occ g fs) eqn:E; [reflexivity|]. exfalso. apply Hg, occ_elem. lia. }
    rewrite Hocc. destruct (futs h !! g) as [[s0 cbs0]|]; [|reflexivity].
    unfold with_callbacks. simpl. rewrite app_nil_r. reflexivity.
Qed.

End Steps.

(** *** A whole scenario *)

Section Drive.
Variables (n c rf : nat).
Variable Q : heap -> Prop.
Variable g' : gen.
Variable keep : list fid.

(** Playing a scenario from a coroutine that has just been resumed along
    [g] leads to the state from which it is resumed along [g'], the
    generator after the scenario; [Q] is what holds after that turn, and
    the futures of [keep] are not touched on the way. *)
Lemma drive (sc : list await_event) : forall g h st,
  gen_after g sc = Some g' ->
  well_formed sc -> NoDup (settled_by sc) ->
  (forall f, f ∈ settled_by sc -> fresh h f) ->
  (forall f, f ∈ keep -> fresh h f /\ f ∉ settled_by sc) ->
  coros h !! c = Some (mkCoroutine st rf) ->
  (forall cl' h' st',
     coros h' !! c = Some (mkCoroutine st' rf) ->
     (forall f, f ∈ keep -> fresh h' f) ->
     exists h2, advance cl' c g' h' = Ok tt h2 /\ Q h2) ->
  forall cl, exists h1 h2,
    advance cl c g h = Ok tt h1 /\
    (sc ≠ [] -> forall f, f ∈ keep -> fresh h1 f) /\
    play (S (S n)) sc h1 = Ok tt h2 /\ Q h2.
Proof.
  induction sc as [|ev sc IH]; intros g h st Hg Hwf Hnd Hfresh Hkeep Hc Hk cl.
  - cbn [gen_after] in Hg. assert (Heq : g = g') by congruence. subst g.
    destruct (Hk cl h st Hc) as (h2 & Hadv & HQ).
    { intros f Hf. apply Hkeep, Hf. }
    exists h2, h2. split; [exact Hadv|]. split; [congruence|]. split; [reflexivity|exact HQ].
  - destruct ev as [f o|fs ord r].
    + cbn [gen_after] in Hg.
      destruct g as [y send throw|e]; [|discriminate Hg].
      destruct y as [| | |f'| |]; try discriminate Hg.
      destruct (Nat.eqb_spec f' f) as [->|]; [|discriminate Hg].
      cbn [settled_by well_formed] in *.
      apply NoDup_cons in Hnd as [Hfnot Hnd].
      destruct (step_settles n c rf st f o send throw h cl Hc) as
        (h1 & h1' & Hadv & Hset & [st' Hc'] & Hsame1 & Hsame).
      { apply Hfresh. left. }
      destruct (IH _ h1' st' Hg Hwf Hnd) with (cl := call (S n)) as (h1'' & h2 & Hadv' & _ & Hplay & HQ).
      * intros x Hx. unfold fresh. rewrite Hsame by (intros ->; contradiction).
        apply Hfresh. right. exact Hx.
      * intros x Hx. destruct (Hkeep x Hx) as [Hxf Hxn]. split.
        -- unfold fresh. rewrite Hsame; [exact Hxf|]. intros ->. apply Hxn. left.
        -- intros Hin. apply Hxn. right. exact Hin.
      * exact Hc'.
      * exact Hk.
      * exists h1, h2. split; [exact Hadv|]. split; [|split; [|exact HQ]].
        -- intros _ x Hx. destruct (Hkeep x Hx) as [Hxf Hxn].
           unfold fresh. rewrite Hsame1; [exact Hxf|]. intros ->. apply Hxn. left.
        -- cbn [play]. unfold bind at 1. rewrite Hset.
           rewrite (logged_ok _ _ _ Hadv'). exact Hplay.
    + cbn [gen_after] in Hg.
      destruct g as [y send throw|e]; [|discriminate Hg].
      destruct y as [| | | |elems|]; try discriminate Hg.
      destruct (decide (as_futures elems = Some fs)) as [Hel|]; [|discriminate Hg].
      apply as_futures_Some in Hel. subst elems.
      cbn [settled_by well_formed] in *.
      destruct Hwf as (Hfsne & Hord & Hwf).
      apply NoDup_app in Hnd as (Hndord & Hdisj & Hnd).
      assert (Hfs : forall f, f ∈ fs -> fresh h f).
      { intros f Hf. apply Hfresh, elem_of_app. left. apply Hord, Hf. }
      destruct (step_tuple n c rf st fs ord r send throw h cl Hc Hfs Hfsne Hndord Hord) as
        (h1 & h1' & Hadv & _ & Hres & [st' Hc'] & Hsame1 & Hsame).
      destruct (IH _ h1' st' Hg Hwf Hnd) with (cl := call n) as (h1'' & h2 & Hadv' & _ & Hplay & HQ).
      * intros x Hx. pose proof (Hfresh x ltac:(apply elem_of_app; right; exact Hx)) as Hxf.
        unfold fresh. rewrite Hsame; [exact Hxf| |eapply lookup_lt_Some; exact Hxf].
        intros Hin. apply Hord in Hin. exact (Hdisj x Hin Hx).
      * intros x Hx. destruct (Hkeep x Hx) as [Hxf Hxn]. split.
        -- unfold fresh. rewrite Hsame; [exact Hxf| |eapply lookup_lt_Some; exact Hxf].
           intros Hin. apply Hxn, elem_of_app. left. apply Hord, Hin.
        -- intros Hin. apply Hxn, elem_of_app. right. exact Hin.
      * exact Hc'.
      * exact Hk.
      * exists h1, h2. split; [exact Hadv|]. split; [|split; [|exact HQ]].
        -- intros _ x Hx. destruct (Hkeep x Hx) as [Hxf Hxn].
           unfold fresh. rewrite Hsame1; [exact Hxf| |eapply lookup_lt_Some; exact Hxf].
           intros Hin. apply Hxn, elem_of_app. left. apply Hord, Hin.
        -- cbn [play]. unfold bind at 1. rewrite Hres.
           rewrite (logged_ok _ _ _ Hadv'). exact Hplay.
Qed.

End Drive.

(** *** The claims on the trampoline *)

Lemma gen_follows_after g sc e : gen_follows g sc = Some e -> gen_after g sc = Some (GRaise e).
Proof.
  unfold gen_follows. destruct (gen_after g sc) as [[y s t|e']|]; try discriminate.
  intros [= ->]. reflexivity.
Qed.

(** From the call of the wrapper to the end of the generator. *)
Lemma coroutine_run n sc g e h :
  gen_follows g sc = Some e -> is_Exception e = true ->
  well_formed sc -> NoDup (settled_by sc) ->
  (forall f, f ∈ settled_by sc -> fresh h f) ->
  exists h1 h2,
    wrapper (call (S (S n))) g h = Ok (length (futs h)) h1 /\
    (sc ≠ [] -> fresh h1 (length (futs h))) /\
    play (S (S n)) sc h1 = Ok tt h2 /\
    futs h2 !! length (futs h) = Some (mkFuture (final_state e) []).
Proof.
  intros Hg He Hwf Hnd Hfresh. apply gen_follows_after in Hg.
  set (rf := length (futs h)). set (c := length (coros h)).
  set (h0 := mkHeap (futs h ++ [mkFuture Pending []]) (joins h)
               (coros h ++ [mkCoroutine (GenCreated g) rf]) (app_log h)).
  destruct (drive n c rf (fun h2 => futs h2 !! rf = Some (mkFuture (final_state e) []))
              (GRaise e) [rf] sc g h0 (GenCreated g) Hg Hwf Hnd)
    with (cl := call (S (S n))) as (h1 & h2 & Hadv & Hkeep & Hplay & HQ).
  - intros f Hf. unfold fresh. cbn [futs h0].
    rewrite lookup_app_l by (eapply lookup_lt_Some; apply Hfresh, Hf). apply Hfresh, Hf.
  - intros f Hf. apply list_elem_of_singleton in Hf. subst f. split.
    + unfold fresh. cbn [futs h0]. apply list_lookup_middle. reflexivity.
    + intros Hin. apply Hfresh, lookup_lt_Some in Hin. unfold rf in Hin. lia.
  - cbn [coros h0]. apply list_lookup_middle. reflexivity.
  - intros cl' h' st' Hc' Hk'.
    assert (Hrf : fresh h' rf) by (apply Hk', list_elem_of_singleton; reflexivity).
    eexists. split; [apply (advance_raise cl' c st' rf e h' Hc' Hrf He)|].
    cbn [futs]. apply list_lookup_insert_eq. eapply lookup_lt_Some. exact Hrf.
  - exists h1, h2. split; [|split; [|split; [exact Hplay|exact HQ]]].
    + rewrite wrapper_advance. fold rf c h0. unfold bind. rewrite Hadv. reflexivity.
    + intros Hsc. apply Hkeep; [exact Hsc|]. apply list_elem_of_singleton. reflexivity.
Qed.

(** C4: the wrapper returns one future at once (pending as long as the
    generator waits for something); each time what the generator waits
    for settles, the generator is resumed with the outcome; and when it
    returns, the outer future resolves to the value returned. *)
Theorem coroutine_resolves_to_return_value n sc g v h :
  gen_follows g sc = Some (StopIteration v) ->
  well_formed sc -> NoDup (settled_by sc) ->
  (forall f, f ∈ settled_by sc -> fresh h f) ->
  exists h1 h2,
    wrapper (call (S (S n))) g h = Ok (length (futs h)) h1 /\
    (sc ≠ [] -> fresh h1 (length (futs h))) /\
    play (S (S n)) sc h1 = Ok tt h2 /\
    futs h2 !! length (futs h) = Some (mkFuture (Resolved v) []).
Proof.
  intros Hg Hwf Hnd Hfresh.
  exact (coroutine_run n sc g (StopIteration v) h Hg eq_refl Hwf Hnd Hfresh).
Qed.

(** C5: when the generator ends with an error, raised by its own code or
    thrown into it for a failed future and not handled, the outer future
    fails with that error. *)
Theorem coroutine_fails_with_unhandled_error n sc g e h :
  gen_follows g sc = Some e -> is_error e = true ->
  well_formed sc -> NoDup (settled_by sc) ->
  (forall f, f ∈ settled_by sc -> fresh h f) ->
  exists h1 h2,
    wrapper (call (S (S n))) g h = Ok (length (futs h)) h1 /\
    play (S (S n)) sc h1 = Ok tt h2 /\
    futs h2 !! length (futs h) = Some (mkFuture (Failed e) []).
Proof.
  intros Hg He Hwf Hnd Hfresh.
  unfold is_error in He. apply andb_true_iff in He as [He Hns].
  destruct (coroutine_run n sc g e h Hg He Hwf Hnd Hfresh) as (h1 & h2 & Hw & _ & Hp & Hfin).
  exists h1, h2. split; [exact Hw|]. split; [exact Hp|].
  destruct e; try discriminate Hns; exact Hfin.
Qed.

(** C6: whenever the generator yields a tuple of futures, at its first
    yield or after any number of earlier ones, [handle_future] is attached
    to the future of a new join over the elements of the tuple, which carry
    only the callback [done] of that join; once the elements have resolved,
    the generator is resumed with the list of their results. *)
Theorem yielded_tuple_is_joined n pre (fs ord : list fid) r send throw g e h :
  gen_after g pre = Some (GYield (VTuple (map VFuture fs)) send throw) ->
  send (VList (map r (uniq fs))) = GRaise e -> is_Exception e = true ->
  well_formed pre -> fs ≠ [] -> (forall f, f ∈ ord <-> f ∈ fs) ->
  NoDup (settled_by pre ++ ord) ->
  (forall f, f ∈ settled_by pre ++ ord -> fresh h f) ->
  exists h1 hm h2 joined j,
    wrapper (call (S (S n))) g h = Ok (length (futs h)) h1 /\
    play (S (S n)) pre h1 = Ok tt hm /\
    futs hm !! joined = Some (mkFuture Pending [CbHandleFuture (length (coros h))]) /\
    joins hm !! j = Some (mkJoin (map VFuture fs) (odict_fromkeys (map VFuture fs)) joined) /\
    (forall f, f ∈ fs -> futs hm !! f = Some (mkFuture Pending (replicate (occ f fs) (CbDone j)))) /\
    resolve_all (S (S n)) ord r hm = Ok tt h2 /\
    futs h2 !! length (futs h) = Some (mkFuture (final_state e) []).
Proof.
  intros Hg Hsend He Hwf Hfsne Hord Hnd Hfresh.
  apply NoDup_app in Hnd as (Hndpre & Hdisj & Hndord).
  set (rf := length (futs h)). set (c := length (coros h)).
  set (h0 := mkHeap (futs h ++ [mkFuture Pending []]) (joins h)
               (coros h ++ [mkCoroutine (GenCreated g) rf]) (app_log h)).
  destruct (drive n c rf
              (fun hm => exists h2 joined j,
                 futs hm !! joined = Some (mkFuture Pending [CbHandleFuture c]) /\
                 joins hm !! j = Some (mkJoin (map VFuture fs) (odict_fromkeys (map VFuture fs)) joined) /\
                 (forall f, f ∈ fs -> futs hm !! f
                    = Some (mkFuture Pending (replicate (occ f fs) (CbDone j)))) /\
                 resolve_all (S (S n)) ord r hm = Ok tt h2 /\
                 futs h2 !! rf = Some (mkFuture (final_state e) []))
              _ (rf :: ord) pre g h0 (GenCreated g) Hg Hwf Hndpre)
    with (cl := call (S (S n))) as (h1 & hm & Hadv & _ & Hplay & HQ).
  - intros f Hf. assert (Hff : fresh h f) by (apply Hfresh, elem_of_app; left; exact Hf).
    unfold fresh. cbn [futs h0].
    rewrite lookup_app_l by (eapply lookup_lt_Some; exact Hff). exact Hff.
  - intros f Hf. apply elem_of_cons in Hf as [->|Hf]; split.
    + unfold fresh. cbn [futs h0]. apply list_lookup_middle. reflexivity.
    + intros Hin. assert (Hff : fresh h rf) by (apply Hfresh, elem_of_app; left; exact Hin).
      apply lookup_lt_Some in Hff. unfold rf in Hff. lia.
    + assert (Hff : fresh h f) by (apply Hfresh, elem_of_app; right; exact Hf).
      unfold fresh. cbn [futs h0].
      rewrite lookup_app_l by (eapply lookup_lt_Some; exact Hff). exact Hff.
    + intros Hin. exact (Hdisj f Hin Hf).
  - cbn [coros h0]. apply list_lookup_middle. reflexivity.
  - intros cl' h' st' Hc' Hk'.
    assert (Hrf : fresh h' rf) by (apply Hk'; left).
    assert (Hfs : forall f, f ∈ fs -> fresh h' f).
    { intros f Hf. apply Hk'. right. apply Hord, Hf. }
    assert (Hrfnot : rf ∉ fs).
    { intros Hin. apply Hord in Hin.
      assert (Hff : fresh h rf) by (apply Hfresh, elem_of_app; right; exact Hin).
      apply lookup_lt_Some in Hff. unfold rf in Hff. lia. }
    destruct (step_tuple n c rf st' fs ord r send throw h' cl' Hc' Hfs Hfsne Hndord Hord) as
      (hm & h1' & Hadv & (Hj1 & Hj2 & Hj3) & Hres & [st'' Hc''] & _ & Hsame).
    assert (Hrf' : fresh h1' rf).
    { unfold fresh. rewrite Hsame; [exact Hrf|exact Hrfnot|].
      eapply lookup_lt_Some. exact Hrf. }
    exists hm. split; [exact Hadv|].
    eexists. exists (length (futs h')), (length (joins h')).
    split; [exact Hj1|]. split; [exact Hj2|]. split; [exact Hj3|].
    split.
    + rewrite Hres, Hsend.
      apply logged_ok. apply (advance_raise (call n) c st'' rf e h1' Hc'' Hrf' He).
    + cbn [futs]. apply list_lookup_insert_eq. eapply lookup_lt_Some. exact Hrf'.
  - destruct HQ as (h2 & joined & j & Hq1 & Hq2 & Hq3 & Hq4 & Hq5).
    exists h1, hm, h2, joined, j.
    split; [|auto 10].
    rewrite wrapper_advance. fold rf c h0. unfold bind. rewrite Hadv. reflexivity.
Qed.

(** *** The claims on [parallel] *)

Lemma list_remove_present f (l : list value) :
  VFuture f ∈ l ->
  exists rest, list_remove (VFuture f) l = Some rest /\ length l = S (length rest).
Proof.
  induction l as [|y l IH]; intros Hin; [inversion Hin|].
  cbn [list_remove]. destruct (py_eq y (VFuture f)) eqn:E.
  - exists l. split; reflexivity.
  - apply elem_of_cons in Hin as [<-|Hin].
    + cbn [py_eq] in E. rewrite Nat.eqb_refl in E. discriminate E.
    + destruct (IH Hin) as (rest & -> & Hlen). exists (y :: rest).
      split; [reflexivity|]. simpl. rewrite Hlen. reflexivity.
Qed.

(** C1: when an input future of a join, still in its pending list, has
    failed with [e], the completion handler [done] called with it raises
    [e]; no future is settled by the call, so the join future is not
    settled with the failure, and the result dictionary is as before. *)
Theorem done_propagates_input_failure cl j J f e cbs h :
  joins h !! j = Some J ->
  VFuture f ∈ futures J ->
  futs h !! f = Some (mkFuture (Failed e) cbs) ->
  exists h',
    done cl j f h = Raise e h' /\
    futs h' = futs h /\
    results <$> joins h' !! j = Some (results J) /\
    result_future <$> joins h' !! j = Some (result_future J).
Proof.
  intros Hj Hin Hf.
  destruct (list_remove_present f (futures J) Hin) as (rest & Hrem & _).
  pose proof (lookup_lt_Some _ _ _ Hj) as Hlt.
  exists (set_joins (<[j := mkJoin rest (results J) (result_future J)]> (joins h)) h).
  split; [|split; [reflexivity|]].
  - unfold done, result. unfold_monad. rewrite Hj; reduce_store.
    rewrite Hrem; reduce_store. rewrite Hf; reduce_store. reflexivity.
  - cbn [joins set_joins]. rewrite list_lookup_insert_eq by exact Hlt. split; reflexivity.
Qed.

Lemma done_propagates_input_failure_witness :
  exists h',
    done (call 1) 0 0
      (mkHeap [mkFuture (Failed (Error 7)) []; mkFuture Pending [CbDone 0]; mkFuture Pending []]
         [mkJoin [VFuture 0; VFuture 1] [(VFuture 0, VNone); (VFuture 1, VNone)] 2] [] [])
    = Raise (Error 7) h' /\
    futs h' = [mkFuture (Failed (Error 7)) []; mkFuture Pending [CbDone 0]; mkFuture Pending []].
Proof.
  destruct (done_propagates_input_failure (call 1) 0
              (mkJoin [VFuture 0; VFuture 1] [(VFuture 0, VNone); (VFuture 1, VNone)] 2)
              0 (Error 7) []
              (mkHeap [mkFuture (Failed (Error 7)) []; mkFuture Pending [CbDone 0];
                       mkFuture Pending []]
                 [mkJoin [VFuture 0; VFuture 1] [(VFuture 0, VNone); (VFuture 1, VNone)] 2]
                 [] []))
    as (h' & Hd & Hfuts & _).
  - reflexivity.
  - simpl. apply list_elem_of_here.
  - reflexivity.
  - exists h'. split; [exact Hd|exact Hfuts].
Defined.

(** C2: [parallel()] without arguments returns a new future that is still
    pending, with no callback registered anywhere that could settle it. *)
Theorem parallel_of_nothing_stays_pending cl h :
  parallel cl [] h
  = Ok (length (futs h))
      (mkHeap (futs h ++ [mkFuture Pending []])
              (joins h ++ [mkJoin [] [] (length (futs h))])
              (coros h) (app_log h)).
Proof. reflexivity. Qed.

(** C3: called with two distinct futures that have both resolved,
    [parallel] returns a future that is still pending: [done] ran for the
    first input only, the loop having skipped the second, which stays in
    the pending list with no callback registered for it. *)
Theorem parallel_of_settled_inputs_stays_pending n f1 f2 v1 v2 cbs1 cbs2 h :
  f1 ≠ f2 ->
  futs h !! f1 = Some (mkFuture (Resolved v1) cbs1) ->
  futs h !! f2 = Some (mkFuture (Resolved v2) cbs2) ->
  parallel (call (S n)) [VFuture f1; VFuture f2] h
  = Ok (length (futs h))
      (mkHeap (futs h ++ [mkFuture Pending []])
              (joins h ++ [mkJoin [VFuture f2] [(VFuture f1, v1); (VFuture f2, VNone)]
                                  (length (futs h))])
              (coros h) (app_log h)).
Proof.
  intros Hne H1 H2.
  pose proof (lookup_lt_Some _ _ _ H1) as Hlt1.
  unfold parallel, new_future, new_join. unfold_monad. reduce_store.
  cbn [forallb hashable andb length for_futures]. unfold_monad. reduce_store.
  rewrite list_lookup_middle by reflexivity. reduce_store. cbn [lookup list_lookup].
  unfold value_add_done_callback, add_done_callback. unfold_monad. reduce_store.
  rewrite lookup_app_l by exact Hlt1. rewrite H1; reduce_store.
  cbn [call]. unfold done, result. unfold_monad. reduce_store.
  rewrite list_lookup_middle by reflexivity. reduce_store.
  cbn [list_remove py_eq]. rewrite Nat.eqb_refl. reduce_store.
  rewrite lookup_app_l by exact Hlt1. rewrite H1; reduce_store.
  rewrite list_insert_insert_eq.
  rewrite list_lookup_insert_eq by (rewrite length_app; simpl; lia). reduce_store.
  rewrite list_lookup_insert_eq by (rewrite length_app; simpl; lia). reduce_store.
  cbn [lookup list_lookup].
  unfold set_joins, set_futs. reduce_store.
  unfold odict_fromkeys. cbn [foldl odict_set py_eq].
  destruct (Nat.eqb_spec f1 f2) as [?|_]; [contradiction|].
  cbn [odict_set py_eq]. rewrite Nat.eqb_refl.
  rewrite insert_app_r_alt by lia. rewrite Nat.sub_diag. reflexivity.
Qed.

(** *** Instances *)

Lemma parallel_one_entry_per_distinct_future_witness :
  exists h1 h2,
    parallel (call 1) [VFuture 0; VFuture 0; VFuture 1] three_fresh = Ok 3 h1 /\
    resolve_all 1 [1; 0] times_ten h1 = Ok tt h2 /\
    futs h2 !! 3 = Some (mkFuture (Resolved (VList [VInt 0; VInt 10])) []).
Proof.
  destruct (parallel_one_entry_per_distinct_future 0 [0; 0; 1] [1; 0] times_ten three_fresh)
    as (h1 & h2 & Hp & Hr & Hf & _).
  - discriminate.
  - intros f Hf. elem_cases Hf; reflexivity.
  - by apply (bool_decide_unpack _).
  - intros f. split; intros Hf; elem_cases Hf; by apply (bool_decide_unpack _).
  - exists h1, h2. split; [exact Hp|]. split; [exact Hr|exact Hf].
Defined.

Lemma parallel_of_settled_inputs_stays_pending_witness :
  parallel (call 1) [VFuture 0; VFuture 1]
    (mkHeap [mkFuture (Resolved (VInt 1)) []; mkFuture (Resolved (VInt 2)) []] [] [] [])
  = Ok 2
      (mkHeap [mkFuture (Resolved (VInt 1)) []; mkFuture (Resolved (VInt 2)) [];
               mkFuture Pending []]
         [mkJoin [VFuture 1] [(VFuture 0, VInt 1); (VFuture 1, VNone)] 2] [] []).
Proof.
  apply (parallel_of_settled_inputs_stays_pending 0 0 1 (VInt 1) (VInt 2) [] []
           (mkHeap [mkFuture (Resolved (VInt 1)) []; mkFuture (Resolved (VInt 2)) []] [] [] [])).
  - lia.
  - reflexivity.
  - reflexivity.
Defined.

Lemma coroutine_resolves_to_return_value_witness :
  exists h1 h2,
    wrapper (call 2) add_one three_fresh = Ok 3 h1 /\
    play 2 [Settles 0 (inl (VInt 5))] h1 = Ok tt h2 /\
    futs h2 !! 3 = Some (mkFuture (Resolved (VInt 6)) []).
Proof.
  destruct (coroutine_resolves_to_return_value 0 [Settles 0 (inl (VInt 5))] add_one (VInt 6)
              three_fresh) as (h1 & h2 & Hw & _ & Hp & Hf).
  - reflexivity.
  - exact I.
  - by apply (bool_decide_unpack _).
  - intros f Hf. elem_cases Hf; reflexivity.
  - exists h1, h2. split; [exact Hw|]. split; [exact Hp|exact Hf].
Defined.

Lemma coroutine_fails_with_unhandled_error_witness :
  exists h1 h2,
    wrapper (call 2) add_one three_fresh = Ok 3 h1 /\
    play 2 [Settles 0 (inr (Error 3))] h1 = Ok tt h2 /\
    futs h2 !! 3 = Some (mkFuture (Failed (Error 3)) []).
Proof.
  destruct (coroutine_fails_with_unhandled_error 0 [Settles 0 (inr (Error 3))] add_one (Error 3)
              three_fresh) as (h1 & h2 & Hw & Hp & Hf).
  - reflexivity.
  - reflexivity.
  - exact I.
  - by apply (bool_decide_unpack _).
  - intros f Hf. elem_cases Hf; reflexivity.
  - exists h1, h2. split; [exact Hw|]. split; [exact Hp|exact Hf].
Defined.

Lemma yielded_tuple_is_joined_witness :
  exists h1 hm h2 joined j,
    wrapper (call 2) wait_then_join three_fresh = Ok 3 h1 /\
    play 2 [Settles 0 (inl VNone)] h1 = Ok tt hm /\
    futs hm !! joined = Some (mkFuture Pending [CbHandleFuture 0]) /\
    joins hm !! j = Some (mkJoin [VFuture 1; VFuture 2]
                            [(VFuture 1, VNone); (VFuture 2, VNone)] joined) /\
    resolve_all 2 [2; 1] times_ten hm = Ok tt h2 /\
    futs h2 !! 3 = Some (mkFuture (Resolved (VList [VInt 10; VInt 20])) []).
Proof.
  destruct (yielded_tuple_is_joined 0 [Settles 0 (inl VNone)] [1; 2] [2; 1] times_ten
              (fun v => GReturn v) (fun e => GRaise e) wait_then_join
              (StopIteration (VList [VInt 10; VInt 20])) three_fresh)
    as (h1 & hm & h2 & joined & j & Hw & Hp & Hj1 & Hj2 & _ & Hr & Hf).
  - reflexivity.
  - reflexivity.
  - reflexivity.
  - exact I.
  - discriminate.
  - intros f. split; intros Hf; elem_cases Hf; by apply (bool_decide_unpack _).
  - by apply (bool_decide_unpack _).
  - intros f Hf. elem_cases Hf; reflexivity.
  - exists h1, hm, h2, joined, j. auto 10.
Defined.

End StoreFacts.

(** ** Properties of the descriptor table *)

Module LoopFacts.
Import Loop.

Section Facts.
Variable EVENT_MAPPING : event -> Z.
Variable handler_raises : handler -> Z -> option exn.

Lemma collect_events_union (H : fd_handlers) :
  collect_events EVENT_MAPPING H = interest_union EVENT_MAPPING H.
Proof.
  unfold collect_events, interest_union, flag_if_nonempty, EVENT_MAPPING_items.
  destruct H as [r w e]; simpl.
  destruct r, w, e; simpl;
    rewrite ?Z.lor_0_l, ?Z.lor_0_r, ?Z.lor_assoc; reflexivity.
Qed.

Lemma update_events_applied fd (L L' : EventLoop) :
  _update_events EVENT_MAPPING fd L = LOk tt L' ->
  exists H, handlers L !! fd = Some H /\ handlers L' = handlers L /\
            io_handlers L' !! fd = Some (interest_union EVENT_MAPPING H).
Proof.
  unfold _update_events; simpl.
  destruct (handlers L !! fd) as [H|] eqn:E; [|discriminate].
  intros [= <-]. exists H. simpl.
  rewrite lookup_insert_eq, collect_events_union. auto.
Qed.

Lemma remove_handler_from_last cb (l : list handler) :
  existsb (Nat.eqb cb) l = false -> remove_handler_from cb (l ++ [cb]) = Some l.
Proof.
  induction l as [|y l IH]; simpl.
  - rewrite Nat.eqb_refl. reflexivity.
  - intros Hx. apply orb_false_iff in Hx as [Hy Hl].
    rewrite Nat.eqb_sym, Hy, (IH Hl). reflexivity.
Qed.

Lemma mask_after_change (ev : event) fd cb (L L' : EventLoop) :
  on_event EVENT_MAPPING ev fd cb L = LOk tt L' \/
  off_event EVENT_MAPPING ev fd cb L = LOk tt L' ->
  exists H, handlers L' !! fd = Some H /\
            io_handlers L' !! fd = Some (interest_union EVENT_MAPPING H).
Proof.
  unfold on_event, off_event.
  destruct (handlers L !! fd) as [H|] eqn:E; [|intros [?|?]; discriminate].
  intros [Hop|Hop].
  - apply update_events_applied in Hop as (H' & Hl & Hh & Hio); simpl in *.
    exists H'. rewrite Hh. auto.
  - destruct (remove_handler_from cb (get_list ev H)); [|discriminate].
    apply update_events_applied in Hop as (H' & Hl & Hh & Hio); simpl in *.
    exists H'. rewrite Hh. auto.
Qed.

(** C8: after any [on_*] or [off_*] call on a registered descriptor, the
    mask applied to the multiplexer for it is the union, over the three
    event kinds, of the flags of the kinds whose callback list is not
    empty.  In particular, on a descriptor without read callbacks,
    [on_read(fd, cb)] followed by [off_read(fd, cb)] leaves
    [handles_read(fd, cb)] false and a mask without the read flag (the
    flags of the other kinds being disjoint from it). *)
Theorem interest_mask_is_union :
  (forall ev fd cb (L L' : EventLoop),
     on_event EVENT_MAPPING ev fd cb L = LOk tt L' \/
     off_event EVENT_MAPPING ev fd cb L = LOk tt L' ->
     exists H, handlers L' !! fd = Some H /\
               io_handlers L' !! fd = Some (interest_union EVENT_MAPPING H)) /\
  (Z.land (EVENT_MAPPING write) (EVENT_MAPPING read) = 0%Z ->
   Z.land (EVENT_MAPPING error) (EVENT_MAPPING read) = 0%Z ->
   forall fd cb H (L : EventLoop),
     handlers L !! fd = Some H -> on_read_list H = [] ->
     exists L1 L2 mask,
       on_read EVENT_MAPPING fd cb L = LOk tt L1 /\
       off_read EVENT_MAPPING fd cb L1 = LOk tt L2 /\
       handles_read fd cb L2 = LOk false L2 /\
       io_handlers L2 !! fd = Some mask /\
       Z.land mask (EVENT_MAPPING read) = 0%Z).
Proof.
  split; [intros ev fd cb L L'; apply mask_after_change|].
  intros Hw He fd cb H L HL Hr.
  destruct H as [r w e]. simpl in Hr. subst r.
  unfold on_read, off_read, handles_read, on_event, off_event, handles_event, _update_events.
  rewrite HL. simpl. rewrite lookup_insert_eq.
  eexists. eexists. eexists. split; [reflexivity|].
  unfold add_handler, remove_handler. simpl.
  rewrite lookup_insert_eq. simpl. rewrite Nat.eqb_refl.
  rewrite lookup_insert_eq. simpl.
  split; [reflexivity|]. simpl.
  rewrite lookup_insert_eq. simpl. split; [reflexivity|].
  rewrite lookup_insert_eq. split; [reflexivity|].
  rewrite collect_events_union. unfold interest_union, flag_if_nonempty.
  destruct w, e; cbn [get_list on_read_list on_write_list on_error_list];
    rewrite ?Z.lor_0_l, ?Z.lor_0_r, ?Z.land_lor_distr_l, ?Hw, ?He; reflexivity.
Qed.

(** C9: a readiness notification for a descriptor that is not in the
    handler table returns without raising, calls no callback and leaves the
    loop as it is. *)
Theorem notification_after_unregister fd events (L : EventLoop) :
  handlers L !! fd = None ->
  _do_on_event EVENT_MAPPING handler_raises fd events L = ([], LOk tt L).
Proof. intros Hfd. unfold _do_on_event. rewrite Hfd. reflexivity. Qed.

End Facts.

Lemma interest_mask_is_union_witness :
  exists L1 L2 mask,
    on_read tornado_flags 3%Z 7 (mkLoop {[3%Z := mkFd [] [9] []]} ∅) = LOk tt L1 /\
    off_read tornado_flags 3%Z 7 L1 = LOk tt L2 /\
    handles_read 3%Z 7 L2 = LOk false L2 /\
    io_handlers L2 !! 3%Z = Some mask /\
    Z.land mask 1 = 0%Z.
Proof.
  destruct (interest_mask_is_union tornado_flags) as [_ Hp].
  apply (Hp eq_refl eq_refl 3%Z 7 (mkFd [] [9] []) (mkLoop {[3%Z := mkFd [] [9] []]} ∅)).
  - reflexivity.
  - reflexivity.
Defined.

Lemma notification_after_unregister_witness :
  _do_on_event tornado_flags (fun _ _ => None) 3%Z 1 (mkLoop ∅ ∅) = ([], LOk tt (mkLoop ∅ ∅)).
Proof.
  apply (notification_after_unregister tornado_flags (fun _ _ => None) 3%Z 1%Z (mkLoop ∅ ∅)).
  reflexivity.
Defined.

End LoopFacts.

(** ** Properties of the timers *)

Module TimerFacts.
Import Timer.

Section Facts.
Variable behaviour : nat -> nat -> value + exn.

Lemma earliest_elem (t0 : timeout) (l : list timeout) : earliest t0 l ∈ t0 :: l.
Proof.
  revert t0; induction l as [|t l IH]; intros t0; simpl.
  - apply list_elem_of_here.
  - destruct (Z.ltb (t_deadline t) (t_deadline t0)).
    + apply list_elem_of_further, IH.
    + pose proof (IH t0) as Hin. apply elem_of_cons in Hin as [->|Hin].
      * apply list_elem_of_here.
      * do 2 apply list_elem_of_further. exact Hin.
Qed.

Lemma Forall_filter_keep {A} (P Q : A -> Prop) `{!forall x, Decision (Q x)} (l : list A) :
  Forall P l -> Forall P (filter Q l).
Proof.
  rewrite !Forall_forall. intros HP x Hx.
  apply list_elem_of_filter in Hx as [_ Hx]. apply HP, Hx.
Qed.

Lemma ncalls_snoc_ne cb c (l : list nat) :
  c ≠ cb -> length (filter (fun x => x = cb) (l ++ [c])) = length (filter (fun x => x = cb) l).
Proof.
  intros Hne. rewrite filter_app, length_app.
  rewrite filter_cons_False by exact Hne. simpl. lia.
Qed.

Lemma ncalls_snoc_eq cb (l : list nat) :
  length (filter (fun x => x = cb) (l ++ [cb])) = S (length (filter (fun x => x = cb) l)).
Proof.
  rewrite filter_app, length_app.
  rewrite filter_cons_True by reflexivity. simpl. lia.
Qed.

Lemma run_action_unscheduled cb a (L : IOLoop) :
  mentions cb a = false -> unscheduled cb L ->
  unscheduled cb (run_logged behaviour a L) /\
  ncalls cb (run_logged behaviour a L) = ncalls cb L.
Proof.
  intros Ha [Ht Hc]. unfold run_logged, ncalls.
  destruct a as [c|i c|w c|i c]; simpl in Ha; apply Nat.eqb_neq in Ha; simpl.
  - destruct (behaviour c _); simpl;
      (split; [split; assumption|apply ncalls_snoc_ne; assumption]).
  - unfold _periodic_handler, finally_unschedule; simpl.
    assert (Hnew : Forall (fun t => mentions cb (t_action t) = false)
                     (timeouts L ++ [mkTimeout (next_handle L) (time L + i) (PeriodicHandler i c)])).
    { apply Forall_app; split; [assumption|]. constructor; [|constructor].
      simpl. apply Nat.eqb_neq; assumption. }
    destruct (behaviour c _) as [r|e]; simpl;
      [destruct (py_eq r (VBool false)); simpl|];
      (split; [split; simpl; [|assumption]|]).
    all: try (apply ncalls_snoc_ne; assumption).
    all: first [exact Hnew | apply Forall_filter_keep; exact Hnew].
  - split; [split; simpl; try assumption|reflexivity].
    apply Forall_app; split; [assumption|]. constructor; [|constructor].
    simpl. apply Nat.eqb_neq; assumption.
  - split; [split; simpl; try assumption|reflexivity].
    apply Forall_app; split; [assumption|]. constructor; [|constructor].
    simpl. apply Nat.eqb_neq; assumption.
Qed.

Lemma step_unscheduled cb (L : IOLoop) :
  unscheduled cb L ->
  unscheduled cb (step behaviour L) /\ ncalls cb (step behaviour L) = ncalls cb L.
Proof.
  intros [Ht Hc]. unfold step.
  destruct (callbacks L) as [|a rest] eqn:Ecb.
  - destruct (timeouts L) as [|t0 ts] eqn:Ets.
    + split; [split; rewrite ?Ets, ?Ecb; constructor|reflexivity].
    + pose proof (earliest_elem t0 ts) as Hin.
      rewrite Forall_forall in Ht. pose proof (Ht _ Hin) as Hm.
      match goal with |- context [run_logged _ _ ?L0] =>
        destruct (run_action_unscheduled cb (t_action (earliest t0 ts)) L0 Hm) as [Hu Hn]
      end.
      { split; simpl; [|constructor]. apply Forall_filter_keep. rewrite Forall_forall. exact Ht. }
      split; [exact Hu|]. rewrite Hn. reflexivity.
  - inversion Hc as [|? ? Ha Hrest]; subst.
    match goal with |- context [run_logged _ _ ?L0] =>
      destruct (run_action_unscheduled cb a L0 Ha) as [Hu Hn]
    end.
    { split; simpl; assumption. }
    split; [exact Hu|]. rewrite Hn. reflexivity.
Qed.

Lemma steps_unscheduled cb n (L : IOLoop) :
  unscheduled cb L -> ncalls cb (steps behaviour n L) = ncalls cb L.
Proof.
  revert L; induction n as [|n IH]; intros L Hu; simpl; [reflexivity|].
  destruct (step_unscheduled cb L Hu) as [Hu' Hn].
  rewrite (IH _ Hu'). exact Hn.
Qed.

(** C7, as amended: a periodic callback is scheduled again, one interval
    later, after every call that returns a value not equal to [False]; after
    a call that returns a value equal to [False] ([False] itself or [0]) or
    raises, nothing is scheduled for it and it is never called again. *)
Theorem periodic_until_False_or_raise interval cb (L : IOLoop) :
  (stops (behaviour cb (ncalls cb L)) = true ->
   unscheduled cb L ->
   forall n, ncalls cb (steps behaviour n (snd (_periodic_handler behaviour interval cb L)))
             = S (ncalls cb L)) /\
  (stops (behaviour cb (ncalls cb L)) = false ->
   timeouts (snd (_periodic_handler behaviour interval cb L))
   = timeouts L ++ [mkTimeout (next_handle L) (time L + interval) (PeriodicHandler interval cb)]).
Proof.
  unfold _periodic_handler, finally_unschedule; simpl.
  change (ncalls cb (mkIO (timeouts L ++ [mkTimeout (next_handle L) (time L + interval) (PeriodicHandler interval cb)]) (callbacks L) (S (next_handle L)) (time L) (run_thread L) (calls L) (errors L))) with (ncalls cb L).
  split.
  - intros Hs [Ht Hc] n.
    assert (Hrm : Forall (fun t => mentions cb (t_action t) = false)
              (filter (fun t => t_handle t ≠ next_handle L)
                 (timeouts L ++ [mkTimeout (next_handle L) (time L + interval) (PeriodicHandler interval cb)]))).
    { rewrite filter_app, filter_cons_False, filter_nil, app_nil_r by (simpl; tauto).
      apply Forall_filter_keep; assumption. }
    destruct (behaviour cb (ncalls cb L)) as [r|e]; simpl in *.
    + rewrite Hs; simpl. rewrite steps_unscheduled by (split; simpl; assumption).
      unfold ncalls; simpl. apply ncalls_snoc_eq.
    + rewrite steps_unscheduled by (split; simpl; assumption).
      unfold ncalls; simpl. apply ncalls_snoc_eq.
  - intros Hs. destruct (behaviour cb (ncalls cb L)) as [r|e]; simpl in *; [|discriminate].
    rewrite Hs. reflexivity.
Qed.

End Facts.

(** C7, as stated, fails: [None] is falsy but not equal to [False], and a
    callback that returns it is called again. *)
Lemma falsy_None_is_rescheduled :
  ~ (forall behaviour interval cb (L : IOLoop),
       match behaviour cb (ncalls cb L) with inl r => truthy r = false | inr _ => True end ->
       unscheduled cb L ->
       forall n, ncalls cb (steps behaviour n (snd (_periodic_handler behaviour interval cb L)))
                 = S (ncalls cb L)).
Proof.
  intros Hclaim.
  specialize (Hclaim (fun _ _ => inl VNone) 1%Z 0 (mkIO [] [] 0 0%Z None [] [])).
  simpl in Hclaim.
  specialize (Hclaim eq_refl ltac:(split; constructor) 1).
  vm_compute in Hclaim. discriminate.
Qed.

Lemma periodic_until_False_or_raise_witness :
  ncalls 0 (steps false_on_third 5
              (snd (_periodic_handler false_on_third 1 0
                      (mkIO [] [] 2 2%Z None [0; 0] [])))) = 3.
Proof.
  destruct (periodic_until_False_or_raise false_on_third 1 0
              (mkIO [] [] 2 2%Z None [0; 0] [])) as [Hstop _].
  apply Hstop.
  - reflexivity.
  - split; constructor.
Defined.

(** Scheduled every 1 time unit, it is called three times, however long
    the loop runs. *)
Example false_on_third_called_three_times :
  calls (steps false_on_third 20
           (snd (_do_schedule_periodically 1 0 (mkIO [] [] 0 0%Z None [] []))))
  = [0; 0; 0].
Proof. vm_compute. reflexivity. Qed.

End TimerFacts.

(** ** Further properties of [parallel] and of the trampoline *)

Module StoreMore.
Import StoreFacts.

Lemma heap_eta h : mkHeap (futs h) (joins h) (coros h) (app_log h) = h.
Proof. destruct h; reflexivity. Qed.

Lemma occ_filter_notin g (ord l : list fid) :
  g ∉ ord -> occ g (filter (fun x => x ∉ ord) l) = occ g l.
Proof.
  intros Hg. induction l as [|x l IH]; [reflexivity|].
  destruct (decide (x ∉ ord)) as [Hx|Hx].
  - rewrite filter_cons_True by exact Hx. simpl. rewrite IH. reflexivity.
  - rewrite filter_cons_False by exact Hx. rewrite IH. simpl.
    destruct (Nat.eqb_spec x g) as [->|]; [contradiction|reflexivity].
Qed.

Lemma occ_app f (l1 l2 : list fid) : occ f (l1 ++ l2) = occ f l1 + occ f l2.
Proof. induction l1 as [|x l1 IH]; simpl; [reflexivity|]. rewrite IH. lia. Qed.

Lemma match_nil {A B} `{EqDecision A} (l : list A) (a b : B) :
  match l with [] => a | _ :: _ => b end = if decide (l = []) then a else b.
Proof. destruct l; reflexivity. Qed.

Lemma filter_notin_nil (l : list fid) : filter (fun x => x ∉ []) l = l.
Proof.
  induction l as [|x l IH]; [reflexivity|].
  rewrite filter_cons_True by (intros H; inversion H). rewrite IH. reflexivity.
Qed.

Lemma resolved_futs_member r (ord : list fid) g : forall F,
  g ∈ ord -> g < length F ->
  resolved_futs F ord r !! g = Some (mkFuture (Resolved (r g)) []).
Proof.
  induction ord as [|x ord IH]; intros F Hg Hlt; [inversion Hg|].
  unfold resolved_futs in *. cbn [foldl].
  destruct (decide (g ∈ ord)) as [Hin|Hnin].
  - apply IH; [exact Hin|]. rewrite length_insert. exact Hlt.
  - apply elem_of_cons in Hg as [->|Hg]; [|contradiction].
    pose proof (resolved_futs_other r ord x (<[x := mkFuture (Resolved (r x)) []]> F) Hnin) as Hoth.
    unfold resolved_futs in Hoth. rewrite Hoth.
    apply list_lookup_insert_eq. exact Hlt.
Qed.

(** Resolving some of the pending inputs of a join, while another is still
    pending, only records their results. *)
Lemma join_progress n j rf r (ord : list fid) : forall pend res h,
  NoDup ord -> (forall g, g ∈ ord -> g ∈ pend) ->
  (exists x, x ∈ pend /\ x ∉ ord) ->
  joins h !! j = Some (mkJoin (map VFuture pend) res rf) ->
  (forall g, g ∈ pend ->
     futs h !! g = Some (mkFuture Pending (replicate (occ g pend) (CbDone j)))) ->
  resolve_all (S n) ord r h
  = Ok tt (mkHeap (resolved_futs (futs h) ord r)
             (<[j := mkJoin (map VFuture (filter (fun x => x ∉ ord) pend))
                      (results_after res ord r) rf]> (joins h))
             (coros h) (app_log h)).
Proof.
  induction ord as [|f ord IH]; intros pend res h Hnd Hsub [x [Hx Hxn]] Hj Hp.
  - cbn [resolve_all]. unfold ret, resolved_futs, results_after. cbn [foldl].
    rewrite filter_notin_nil, list_insert_id by exact Hj. rewrite heap_eta. reflexivity.
  - apply NoDup_cons in Hnd as [Hf Hnd].
    apply not_elem_of_cons in Hxn as [Hxf Hxn].
    assert (Hin : f ∈ pend) by (apply Hsub; left).
    pose proof (lookup_lt_Some _ _ _ Hj) as Hlt.
    cbn [resolve_all]. unfold bind at 1.
    rewrite (settle_input n j f h pend res rf (r f) Hj (Hp f Hin) Hin). cbv zeta.
    destruct (filter (fun y => y ≠ f) pend) as [|y l] eqn:Efil.
    { exfalso. assert (Hxin : x ∈ filter (fun y => y ≠ f) pend)
        by (apply list_elem_of_filter; split; assumption).
      rewrite Efil in Hxin. inversion Hxin. }
    rewrite <- Efil.
    rewrite (IH (filter (fun y => y ≠ f) pend) (odict_set (VFuture f) (r f) res));
      try assumption.
    + cbn [futs joins coros app_log]. unfold resolved_futs, results_after. cbn [foldl].
      rewrite list_insert_insert_eq, list_filter_filter.
      rewrite (list_filter_iff (fun a => (a ∉ ord) /\ a ≠ f) (fun a => a ∉ f :: ord));
        [reflexivity|].
      intros z. rewrite not_elem_of_cons. tauto.
    + intros g Hg. apply list_elem_of_filter. split; [intros ->; contradiction|].
      apply Hsub. right. exact Hg.
    + exists x. split; [apply list_elem_of_filter; split; assumption|exact Hxn].
    + cbn [joins]. apply list_lookup_insert_eq. exact Hlt.
    + intros z Hz. cbn [futs]. apply list_elem_of_filter in Hz as [Hzf Hz].
      rewrite list_lookup_insert_ne by congruence.
      rewrite occ_filter_ne by assumption. apply Hp, Hz.
Qed.

(** The callbacks of an input that has failed: every run of [done] takes
    one occurrence out of the pending list and raises the error, which the
    settlement logs. *)
Lemma run_dones_failed n j f e rf k : forall pend res h,
  is_Exception e = true ->
  joins h !! j = Some (mkJoin (map VFuture pend) res rf) ->
  futs h !! f = Some (mkFuture (Failed e) []) ->
  occ f pend = k ->
  run_callbacks (call (S n)) (replicate k (CbDone j)) f h
  = Ok tt (mkHeap (futs h)
             (<[j := mkJoin (map VFuture (filter (fun x => x ≠ f) pend)) res rf]> (joins h))
             (coros h) (app_log h ++ replicate k e)).
Proof.
  induction k as [|k IH]; intros pend res h He Hj Hf Hocc.
  - cbn [replicate run_callbacks]. unfold ret.
    rewrite filter_ne_nil_occ by exact Hocc.
    rewrite list_insert_id by exact Hj. rewrite app_nil_r, heap_eta. reflexivity.
  - assert (Hin : f ∈ pend) by (apply occ_elem; lia).
    destruct (list_remove_future f pend Hin) as (pend' & Hrem & Ho & Hfil).
    pose proof (lookup_lt_Some _ _ _ Hj) as Hlt.
    cbn [replicate run_callbacks call].
    assert (Hdone : done (call n) j f h
                    = Raise e (set_joins (<[j := mkJoin (map VFuture pend') res rf]> (joins h)) h)).
    { unfold done, result. unfold_monad. rewrite Hj; reduce_store.
      rewrite Hrem; reduce_store. rewrite Hf; reduce_store. reflexivity. }
    unfold bind at 1, logged, try_except. rewrite Hdone, He. unfold log_exn.
    rewrite (IH pend' res); try assumption.
    + cbn [futs joins coros app_log set_joins]. rewrite list_insert_insert_eq, Hfil.
      rewrite <- app_assoc. reflexivity.
    + cbn [joins set_joins]. apply list_lookup_insert_eq. exact Hlt.
    + lia.
Qed.

Lemma fail_input n j f e h pend res rf :
  is_Exception e = true ->
  joins h !! j = Some (mkJoin (map VFuture pend) res rf) ->
  futs h !! f = Some (mkFuture Pending (replicate (occ f pend) (CbDone j))) ->
  set_exception (call (S n)) f e h
  = Ok tt (mkHeap (<[f := mkFuture (Failed e) []]> (futs h))
             (<[j := mkJoin (map VFuture (filter (fun x => x ≠ f) pend)) res rf]> (joins h))
             (coros h) (app_log h ++ replicate (occ f pend) e)).
Proof.
  intros He Hj Hf. pose proof (lookup_lt_Some _ _ _ Hf) as Hlt.
  unfold set_exception, settle. unfold_monad. rewrite Hf; reduce_store.
  rewrite (run_dones_failed n j f e rf (occ f pend) pend res); try assumption; try reflexivity.
  cbn [futs set_futs]. apply list_lookup_insert_eq. exact Hlt.
Qed.

(** X1: when an input of [parallel] fails and the others resolve, some
    before and at least one after the failure, the join does not fail: it
    resolves, at the last settlement, to the list of results with [None]
    in the place of the failed input. *)
Theorem parallel_reports_failed_input_as_None n (fs ord1 ord2 : list fid) f e r h :
  (forall g, g ∈ fs -> fresh h g) -> is_Exception e = true ->
  NoDup (ord1 ++ f :: ord2) -> (forall g, g ∈ ord1 ++ f :: ord2 <-> g ∈ fs) ->
  ord2 ≠ [] ->
  exists h1 h2 h3 h4,
    parallel (call (S n)) (map VFuture fs) h = Ok (length (futs h)) h1 /\
    resolve_all (S n) ord1 r h1 = Ok tt h2 /\
    set_exception (call (S n)) f e h2 = Ok tt h3 /\
    futs h3 !! length (futs h) = Some (mkFuture Pending []) /\
    resolve_all (S n) ord2 r h3 = Ok tt h4 /\
    futs h4 !! length (futs h)
    = Some (mkFuture
              (Resolved (VList (map (fun g => if decide (g = f) then VNone else r g) (uniq fs))))
              []).
Proof.
  intros Hfresh He Hnd Hall Hne2.
  apply NoDup_app in Hnd as (Hnd1 & Hdisj & Hnd2).
  apply NoDup_cons in Hnd2 as [Hf2 Hnd2].
  assert (Hf1 : f ∉ ord1) by (intros Hin; apply (Hdisj f Hin); left).
  assert (Hfin : f ∈ fs) by (apply Hall; apply elem_of_app; right; left).
  destruct (parallel_pending (call (S n)) fs h) as (F' & Hpar & Hlen & Hrf & Hlook).
  { intros g Hg. exists []. apply Hfresh, Hg. }
  set (rf := length (futs h)) in *. set (j := length (joins h)) in *.
  set (res0 := odict_fromkeys (map VFuture fs)) in *.
  set (h1 := mkHeap F' (joins h ++ [mkJoin (map VFuture fs) res0 rf]) (coros h) (app_log h)) in *.
  assert (Hlt : forall g, g ∈ fs -> g < rf).
  { intros g Hg. apply Hfresh, lookup_lt_Some in Hg. exact Hg. }
  assert (Hj1 : joins h1 !! j = Some (mkJoin (map VFuture fs) res0 rf))
    by (apply list_lookup_middle; reflexivity).
  assert (Hp1 : forall g, g ∈ fs ->
            futs h1 !! g = Some (mkFuture Pending (replicate (occ g fs) (CbDone j)))).
  { intros g Hg. cbn [futs h1]. rewrite Hlook by (apply Hlt, Hg).
    rewrite (Hfresh g Hg). reflexivity. }
  pose proof (join_progress n j rf r ord1 fs res0 h1 Hnd1) as Hprog.
  rewrite Hj1 in Hprog. specialize (Hprog
    ltac:(intros g Hg; apply Hall; apply elem_of_app; left; exact Hg)
    ltac:(exists f; split; assumption) eq_refl Hp1).
  set (pend2 := filter (fun x => x ∉ ord1) fs) in *.
  set (res2 := results_after res0 ord1 r) in *.
  set (h2 := mkHeap (resolved_futs (futs h1) ord1 r)
               (<[j := mkJoin (map VFuture pend2) res2 rf]> (joins h1)) (coros h1) (app_log h1)) in *.
  assert (Hjlt : j < length (joins h1)) by (eapply lookup_lt_Some; exact Hj1).
  assert (Hj2 : joins h2 !! j = Some (mkJoin (map VFuture pend2) res2 rf))
    by (apply list_lookup_insert_eq; exact Hjlt).
  assert (Hp2 : forall g, g ∈ pend2 ->
            futs h2 !! g = Some (mkFuture Pending (replicate (occ g pend2) (CbDone j)))).
  { intros g Hg. apply list_elem_of_filter in Hg as [Hgn Hg]. cbn [futs h2].
    rewrite resolved_futs_other by exact Hgn. unfold pend2.
    rewrite occ_filter_notin by exact Hgn. apply Hp1, Hg. }
  assert (Hfp2 : f ∈ pend2) by (apply list_elem_of_filter; split; assumption).
  pose proof (fail_input n j f e h2 pend2 res2 rf He Hj2 (Hp2 f Hfp2)) as Hfail.
  set (pend3 := filter (fun x => x ≠ f) pend2) in *.
  set (h3 := mkHeap (<[f := mkFuture (Failed e) []]> (futs h2))
               (<[j := mkJoin (map VFuture pend3) res2 rf]> (joins h2)) (coros h2)
               (app_log h2 ++ replicate (occ f pend2) e)) in *.
  assert (Hmem3 : forall g, g ∈ ord2 <-> g ∈ pend3).
  { intros g. unfold pend3, pend2. rewrite !list_elem_of_filter, <- Hall, elem_of_app, elem_of_cons.
    split.
    - intros Hg. split; [intros ->; contradiction|].
      split; [intros Hg1; apply (Hdisj g Hg1); right; exact Hg|auto].
    - intros (Hgf & Hg1 & [Hg|[Hg|Hg]]); [contradiction|contradiction|exact Hg]. }
  assert (Hj3 : joins h3 !! j = Some (mkJoin (map VFuture pend3) res2 rf)).
  { apply list_lookup_insert_eq. eapply lookup_lt_Some. exact Hj2. }
  assert (Hp3 : forall g, g ∈ pend3 ->
            futs h3 !! g = Some (mkFuture Pending (replicate (occ g pend3) (CbDone j)))).
  { intros g Hg. apply list_elem_of_filter in Hg as [Hgf Hg]. cbn [futs h3].
    rewrite list_lookup_insert_ne by congruence. unfold pend3.
    rewrite occ_filter_ne by exact Hgf. apply Hp2, Hg. }
  assert (Hrfn : forall ord : list fid, (forall g, g ∈ ord -> g ∈ fs) -> rf ∉ ord).
  { intros ord Hsub Hin. apply Hsub, Hlt in Hin. lia. }
  assert (Hrf3 : futs h3 !! rf = Some (mkFuture Pending [])).
  { cbn [futs h3 h2 h1]. rewrite list_lookup_insert_ne by (apply Hlt in Hfin; lia).
    rewrite resolved_futs_other; [exact Hrf|].
    apply Hrfn. intros g Hg. apply Hall; apply elem_of_app. left. exact Hg. }
  exists h1, h2, h3. eexists.
  split; [exact Hpar|]. split; [exact Hprog|]. split; [exact Hfail|]. split; [exact Hrf3|].
  rewrite (join_completes n j rf r ord2 pend3 res2 h3 Hnd2 Hmem3 Hne2 Hj3 Hp3).
  assert (Hrf4 : resolved_futs (futs h3) ord2 r !! rf = Some (mkFuture Pending [])).
  { rewrite resolved_futs_other; [exact Hrf3|].
    apply Hrfn. intros g Hg. apply Hall; apply elem_of_app. right. right. exact Hg. }
  unfold bind, logged, try_except. rewrite set_result_no_callbacks by exact Hrf4.
  split; [reflexivity|]. cbn [futs set_futs].
  rewrite list_lookup_insert_eq by (eapply lookup_lt_Some; exact Hrf4).
  do 4 f_equal. unfold res2, res0. rewrite odict_fromkeys_futures.
  assert (Hsub1 : forall g, g ∈ ord1 -> g ∈ uniq fs)
    by (intros g Hg; apply uniq_elem; apply Hall; apply elem_of_app; left; exact Hg).
  assert (Hsub2 : forall g, g ∈ ord2 -> g ∈ uniq fs)
    by (intros g Hg; apply uniq_elem; apply Hall; apply elem_of_app; right; right; exact Hg).
  rewrite results_after_entries by (auto using uniq_NoDup).
  rewrite results_after_entries by (auto using uniq_NoDup).
  rewrite map_map. apply map_ext_in. intros g Hg. unfold entry. cbn [snd].
  apply list_elem_of_In in Hg. apply (proj1 (uniq_elem _ _)) in Hg.
  apply (proj2 (Hall _)) in Hg.
  apply elem_of_app in Hg as [Hg|Hg]; [|apply elem_of_cons in Hg as [->|Hg]].
  - rewrite (decide_False (P := g ∈ ord2)) by (intros Hg2; apply (Hdisj g Hg); right; exact Hg2).
    rewrite decide_True by exact Hg.
    rewrite decide_False by (intros ->; contradiction). reflexivity.
  - rewrite (decide_False (P := f ∈ ord2)) by exact Hf2.
    rewrite decide_False by exact Hf1. rewrite decide_True by reflexivity. reflexivity.
  - rewrite decide_True by exact Hg.
    rewrite decide_False by (intros ->; contradiction). reflexivity.
Qed.

(** X2: when the input that settles last fails, the join is never
    completed: the failure empties the pending list, [done] raises before
    its test of that list, the error is only logged, and the join future
    stays pending with no callback left on any input. *)
Theorem parallel_never_completes_when_last_input_fails n (fs ord : list fid) f e r h :
  (forall g, g ∈ fs -> fresh h g) -> is_Exception e = true ->
  NoDup (ord ++ [f]) -> (forall g, g ∈ ord ++ [f] <-> g ∈ fs) ->
  exists h1 h2 h3 J,
    parallel (call (S n)) (map VFuture fs) h = Ok (length (futs h)) h1 /\
    resolve_all (S n) ord r h1 = Ok tt h2 /\
    set_exception (call (S n)) f e h2 = Ok tt h3 /\
    futs h3 !! length (futs h) = Some (mkFuture Pending []) /\
    joins h3 !! length (joins h) = Some J /\ futures J = [] /\
    (forall g, g ∈ fs -> exists st, st ≠ Pending /\ futs h3 !! g = Some (mkFuture st [])) /\
    app_log h3 = app_log h ++ replicate (occ f fs) e.
Proof.
  intros Hfresh He Hnd Hall.
  apply NoDup_app in Hnd as (Hnd1 & Hdisj & _).
  assert (Hf1 : f ∉ ord) by (intros Hin; apply (Hdisj f Hin); left).
  assert (Hfin : f ∈ fs) by (apply Hall; apply elem_of_app; right; left).
  destruct (parallel_pending (call (S n)) fs h) as (F' & Hpar & Hlen & Hrf & Hlook).
  { intros g Hg. exists []. apply Hfresh, Hg. }
  set (rf := length (futs h)) in *. set (j := length (joins h)) in *.
  set (res0 := odict_fromkeys (map VFuture fs)) in *.
  set (h1 := mkHeap F' (joins h ++ [mkJoin (map VFuture fs) res0 rf]) (coros h) (app_log h)) in *.
  assert (Hlt : forall g, g ∈ fs -> g < rf).
  { intros g Hg. apply Hfresh, lookup_lt_Some in Hg. exact Hg. }
  assert (Hj1 : joins h1 !! j = Some (mkJoin (map VFuture fs) res0 rf))
    by (apply list_lookup_middle; reflexivity).
  assert (Hp1 : forall g, g ∈ fs ->
            futs h1 !! g = Some (mkFuture Pending (replicate (occ g fs) (CbDone j)))).
  { intros g Hg. cbn [futs h1]. rewrite Hlook by (apply Hlt, Hg).
    rewrite (Hfresh g Hg). reflexivity. }
  pose proof (join_progress n j rf r ord fs res0 h1 Hnd1) as Hprog.
  rewrite Hj1 in Hprog. specialize (Hprog
    ltac:(intros g Hg; apply Hall; apply elem_of_app; left; exact Hg)
    ltac:(exists f; split; assumption) eq_refl Hp1).
  set (pend2 := filter (fun x => x ∉ ord) fs) in *.
  set (res2 := results_after res0 ord r) in *.
  set (h2 := mkHeap (resolved_futs (futs h1) ord r)
               (<[j := mkJoin (map VFuture pend2) res2 rf]> (joins h1)) (coros h1) (app_log h1)) in *.
  assert (Hjlt : j < length (joins h1)) by (eapply lookup_lt_Some; exact Hj1).
  assert (Hj2 : joins h2 !! j = Some (mkJoin (map VFuture pend2) res2 rf))
    by (apply list_lookup_insert_eq; exact Hjlt).
  assert (Hfp2 : f ∈ pend2) by (apply list_elem_of_filter; split; assumption).
  assert (Hocc2 : occ f pend2 = occ f fs) by (apply occ_filter_notin; exact Hf1).
  assert (Hp2 : futs h2 !! f = Some (mkFuture Pending (replicate (occ f pend2) (CbDone j)))).
  { cbn [futs h2]. rewrite resolved_futs_other by exact Hf1. rewrite Hocc2.
    apply Hp1, Hfin. }
  pose proof (fail_input n j f e h2 pend2 res2 rf He Hj2 Hp2) as Hfail.
  assert (Hempty : filter (fun x => x ≠ f) pend2 = []).
  { destruct (filter (fun x => x ≠ f) pend2) as [|y l] eqn:E; [reflexivity|exfalso].
    assert (Hy : y ∈ filter (fun x => x ≠ f) pend2) by (rewrite E; left).
    apply list_elem_of_filter in Hy as [Hyf Hy]. apply list_elem_of_filter in Hy as [Hyo Hy].
    apply Hall in Hy. apply elem_of_app in Hy as [Hy|Hy]; [contradiction|].
    apply list_elem_of_singleton in Hy. contradiction. }
  rewrite Hempty in Hfail.
  exists h1, h2. eexists. eexists.
  split; [exact Hpar|]. split; [exact Hprog|]. split; [exact Hfail|].
  assert (Hrfn : rf ∉ ord).
  { intros Hin. assert (Hin' : rf ∈ fs) by (apply Hall; apply elem_of_app; left; exact Hin).
    apply Hlt in Hin'. lia. }
  split; [|split; [|split; [|split]]].
  - cbn [futs h2 h1]. rewrite list_lookup_insert_ne by (apply Hlt in Hfin; lia).
    rewrite resolved_futs_other by exact Hrfn. exact Hrf.
  - cbn [joins]. apply list_lookup_insert_eq. eapply lookup_lt_Some. exact Hj2.
  - reflexivity.
  - intros g Hg. cbn [futs].
    destruct (decide (g = f)) as [->|Hgf].
    { exists (Failed e). split; [discriminate|].
      apply list_lookup_insert_eq. eapply lookup_lt_Some. exact Hp2. }
    rewrite list_lookup_insert_ne by congruence.
    exists (Resolved (r g)). split; [discriminate|].
    apply Hall in Hg. apply elem_of_app in Hg as [Hg|Hg];
      [|apply list_elem_of_singleton in Hg; contradiction].
    cbn [futs h2]. apply resolved_futs_member; [exact Hg|].
    cbn [futs h1]. rewrite Hlen. apply Nat.lt_lt_succ_r, Hlt. apply Hall. apply elem_of_app. left. exact Hg.
  - cbn [app_log h2 h1]. rewrite Hocc2. reflexivity.
Qed.

(** *** Arguments of [parallel] that are settled, or no futures *)

(** The registration loop over a prefix of pending futures. *)
Lemma for_futures_prefix cl j J (pre : list fid) (rest : list value) K k : forall i h,
  joins h !! j = Some J -> futures J = map VFuture pre ++ rest -> i + k = length pre ->
  (forall f, f ∈ pre -> exists cbs, futs h !! f = Some (mkFuture Pending cbs)) ->
  exists F',
    for_futures cl j (k + K) i h = for_futures cl j K (length pre) (set_futs F' h) /\
    length F' = length (futs h) /\
    forall f, F' !! f
              = with_callbacks (replicate (occ f (drop i pre)) (CbDone j)) <$> (futs h !! f).
Proof.
  induction k as [|k IH]; intros i h Hj HJ Hik Hp.
  - exists (futs h). split; [|split; [reflexivity|]].
    + cbn [Nat.add]. replace i with (length pre) by lia. destruct h; reflexivity.
    + intros f. rewrite drop_ge by lia. simpl.
      destruct (futs h !! f) as [[st cbs]|]; [|reflexivity].
      simpl. unfold with_callbacks. simpl. rewrite app_nil_r. reflexivity.
  - destruct (lookup_lt_is_Some_2 pre i ltac:(lia)) as [f0 Hf0].
    assert (Hin0 : f0 ∈ pre) by (eapply list_elem_of_lookup_2; exact Hf0).
    destruct (Hp f0 Hin0) as [cbs0 Hcbs0].
    pose proof (lookup_lt_Some _ _ _ Hcbs0) as Hlt0.
    set (h1 := set_futs (<[f0 := mkFuture Pending (cbs0 ++ [CbDone j])]> (futs h)) h).
    destruct (IH (S i) h1) as (F' & Hrun & Hlen & Hlook).
    + exact Hj.
    + exact HJ.
    + lia.
    + intros f Hf. destruct (decide (f = f0)) as [->|Hne].
      * exists (cbs0 ++ [CbDone j]). simpl. apply list_lookup_insert_eq. exact Hlt0.
      * destruct (Hp f Hf) as [cbs Hcbs]. exists cbs. simpl.
        rewrite list_lookup_insert_ne by congruence. exact Hcbs.
    + exists F'. split; [|split].
      * cbn [Nat.add for_futures]. unfold bind at 1, get_join. rewrite Hj.
        rewrite HJ, lookup_app_l by (rewrite length_map; lia).
        rewrite list_lookup_fmap, Hf0. cbn [fmap option_fmap option_map].
        unfold bind at 1. unfold value_add_done_callback, add_done_callback, bind at 1, get_future.
        rewrite Hcbs0. cbn [f_state f_callbacks]. unfold put_future.
        fold h1. rewrite Hrun. reflexivity.
      * rewrite Hlen. simpl. apply length_insert.
      * intros f. rewrite Hlook. cbn [futs h1 set_futs].
        rewrite (drop_S pre f0 i Hf0).
        destruct (decide (f = f0)) as [->|Hne].
        -- rewrite list_lookup_insert_eq by exact Hlt0. rewrite Hcbs0, occ_cons_eq.
           simpl. unfold with_callbacks. simpl. rewrite <- app_assoc. reflexivity.
        -- rewrite list_lookup_insert_ne by congruence.
           rewrite occ_cons_ne by congruence. reflexivity.
Qed.

Lemma forallb_hashable_app (pre : list fid) (rest : list value) :
  forallb hashable (map VFuture pre ++ rest) = forallb hashable rest.
Proof. rewrite forallb_app, forallb_hashable_futures. reflexivity. Qed.

(** [parallel] up to the argument that follows a prefix of pending
    futures. *)
Lemma parallel_prefix cl (pre : list fid) x (rest : list value) h :
  (forall g, g ∈ pre -> exists cbs, futs h !! g = Some (mkFuture Pending cbs)) ->
  forallb hashable (x :: rest) = true ->
  exists F',
    parallel cl (map VFuture pre ++ x :: rest) h
    = (value_add_done_callback cl x (CbDone (length (joins h))) ;;
       for_futures cl (length (joins h)) (length rest) (S (length pre)) ;;
       ret (length (futs h)))
        (mkHeap F'
           (joins h ++ [mkJoin (map VFuture pre ++ x :: rest)
                               (odict_fromkeys (map VFuture pre ++ x :: rest))
                               (length (futs h))])
           (coros h) (app_log h)) /\
    length F' = S (length (futs h)) /\
    F' !! length (futs h) = Some (mkFuture Pending []) /\
    forall g, g < length (futs h) ->
      F' !! g = with_callbacks (replicate (occ g pre) (CbDone (length (joins h)))) <$> (futs h !! g).
Proof.
  intros Hp Hhash.
  set (rf := length (futs h)). set (j := length (joins h)).
  set (args := map VFuture pre ++ x :: rest).
  set (J := mkJoin args (odict_fromkeys args) rf).
  set (h1 := mkHeap (futs h ++ [mkFuture Pending []]) (joins h ++ [J]) (coros h) (app_log h)).
  destruct (for_futures_prefix cl j J pre (x :: rest) (S (length rest)) (length pre) 0 h1)
    as (F' & Hrun & Hlen & Hlook).
  - simpl. apply list_lookup_middle. reflexivity.
  - reflexivity.
  - lia.
  - intros f Hf. destruct (Hp f Hf) as [cbs Hcbs]. exists cbs. simpl.
    rewrite lookup_app_l by (eapply lookup_lt_Some; exact Hcbs). exact Hcbs.
  - assert (Hocc : occ rf pre = 0).
    { destruct (occ rf pre) eqn:E; [reflexivity|]. exfalso.
      assert (Hin : rf ∈ pre) by (apply occ_elem; lia).
      destruct (Hp rf Hin) as [cbs Hcbs]. apply lookup_lt_Some in Hcbs. unfold rf in Hcbs. lia. }
    exists F'. split; [|split; [|split]].
    + unfold parallel, bind at 1, new_future.
      unfold bind at 1. fold args. unfold args at 1. rewrite forallb_hashable_app, Hhash.
      unfold ret at 1.
      unfold bind at 1, new_join. cbn [joins set_futs set_joins futs coros app_log].
      unfold bind at 1. fold rf j J.
      change (set_joins (joins h ++ [J]) (set_futs (futs h ++ [mkFuture Pending []]) h)) with h1.
      replace (length args) with (length pre + S (length rest))
        by (unfold args; rewrite length_app, length_map; reflexivity).
      rewrite Hrun. cbn [set_futs h1 joins coros app_log futs].
      cbn [for_futures]. unfold bind at 1, get_join. cbn [joins].
      assert (Hj : joins (set_futs F' h1) !! j = Some J)
        by (apply list_lookup_middle; reflexivity).
      rewrite Hj. cbn [futures J].
      assert (Hx : args !! length pre = Some x)
        by (apply list_lookup_middle; rewrite length_map; reflexivity).
      rewrite Hx. unfold bind. unfold set_futs, h1. cbn [futs joins coros app_log].
      destruct (value_add_done_callback cl x (CbDone j) _); reflexivity.
    + rewrite Hlen. simpl. rewrite length_app. simpl. lia.
    + rewrite Hlook. rewrite drop_0, Hocc. cbn [futs h1].
      rewrite list_lookup_middle by reflexivity. reflexivity.
    + intros f Hf. rewrite Hlook. rewrite drop_0. cbn [futs h1].
      rewrite lookup_app_l by exact Hf. reflexivity.
Qed.

(** X3: an argument of [parallel] that has already failed makes the call
    itself raise the error of that argument, when the arguments before it
    are pending: [done] is called at once and its [result()] re-raises.
    No future is returned, and [done] stays registered on the arguments
    before it. *)
Theorem parallel_raises_error_of_failed_argument n (pre : list fid) f (rest : list value) e cbs h :
  (forall g, g ∈ pre -> exists cbs', futs h !! g = Some (mkFuture Pending cbs')) ->
  futs h !! f = Some (mkFuture (Failed e) cbs) ->
  forallb hashable rest = true ->
  exists h',
    parallel (call (S n)) (map VFuture pre ++ VFuture f :: rest) h = Raise e h' /\
    fresh h' (length (futs h)) /\
    forall g, g ∈ pre ->
      futs h' !! g
      = with_callbacks (replicate (occ g pre) (CbDone (length (joins h)))) <$> (futs h !! g).
Proof.
  intros Hp Hf Hrest.
  destruct (parallel_prefix (call (S n)) pre (VFuture f) rest h Hp Hrest)
    as (F' & Hpar & Hlen & Hrf & Hlook).
  pose proof (lookup_lt_Some _ _ _ Hf) as Hflt.
  assert (Hfpre : f ∉ pre).
  { intros Hin. destruct (Hp f Hin) as [cbs' Hc]. congruence. }
  assert (Hocc : occ f pre = 0).
  { destruct (occ f pre) eqn:E; [reflexivity|]. exfalso. apply Hfpre, occ_elem. lia. }
  set (args := map VFuture pre ++ VFuture f :: rest) in *.
  destruct (list_remove_present f args) as (rest' & Hrem & _).
  { unfold args. apply elem_of_app. right. left. }
  eexists. split; [|split].
  - rewrite Hpar. unfold value_add_done_callback, add_done_callback. unfold_monad. reduce_store.
    rewrite (Hlook f Hflt), Hf, Hocc. cbn [fmap option_fmap option_map with_callbacks f_state].
    cbn [call]. unfold done, result. unfold_monad. reduce_store.
    rewrite list_lookup_middle by reflexivity. reduce_store.
    rewrite Hrem. reduce_store.
    rewrite (Hlook f Hflt), Hf, Hocc. cbn [fmap option_fmap option_map with_callbacks f_state].
    reflexivity.
  - unfold fresh. cbn [futs]. exact Hrf.
  - intros g Hg. cbn [futs]. apply Hlook.
    destruct (Hp g Hg) as [cbs' Hc]. eapply lookup_lt_Some. exact Hc.
Qed.

(** X4: an argument of [parallel] that is not a future makes the call
    raise [AttributeError] in its registration loop, when the arguments
    before it are pending futures; [done] stays registered on those. *)
Theorem parallel_raises_on_non_future_argument cl (pre : list fid) x (rest : list value) h :
  (forall g, g ∈ pre -> exists cbs', futs h !! g = Some (mkFuture Pending cbs')) ->
  (forall f, x ≠ VFuture f) ->
  forallb hashable (x :: rest) = true ->
  exists h',
    parallel cl (map VFuture pre ++ x :: rest) h = Raise AttributeError h' /\
    fresh h' (length (futs h)) /\
    forall g, g ∈ pre ->
      futs h' !! g
      = with_callbacks (replicate (occ g pre) (CbDone (length (joins h)))) <$> (futs h !! g).
Proof.
  intros Hp Hx Hhash.
  destruct (parallel_prefix cl pre x rest h Hp Hhash) as (F' & Hpar & Hlen & Hrf & Hlook).
  eexists. split; [|split].
  - rewrite Hpar. unfold value_add_done_callback. unfold_monad.
    destruct x; try reflexivity. exfalso. exact (Hx _ eq_refl).
  - exact Hrf.
  - intros g Hg. cbn [futs]. apply Hlook.
    destruct (Hp g Hg) as [cbs' Hc]. eapply lookup_lt_Some. exact Hc.
Qed.

(** X5: an argument that has already resolved is harmless in the last
    position: [done] runs for it during the call, and once the pending
    arguments before it have resolved, in any order, the join resolves to
    all the results, the early one included (with no pending argument the
    join is resolved when [parallel] returns). *)
Theorem parallel_accepts_resolved_last_argument n (pre ord : list fid) f v cbs r h :
  (forall g, g ∈ pre -> fresh h g) ->
  futs h !! f = Some (mkFuture (Resolved v) cbs) ->
  NoDup ord -> (forall g, g ∈ ord <-> g ∈ pre) ->
  exists h1 h2,
    parallel (call (S n)) (map VFuture (pre ++ [f])) h = Ok (length (futs h)) h1 /\
    resolve_all (S n) ord r h1 = Ok tt h2 /\
    futs h2 !! length (futs h)
    = Some (mkFuture
              (Resolved (VList (map (fun g => if decide (g = f) then v else r g)
                                    (uniq (pre ++ [f])))))
              []).
Proof.
  intros Hfresh Hf Hnd Hord.
  assert (Hp : forall g, g ∈ pre -> exists cbs', futs h !! g = Some (mkFuture Pending cbs')).
  { intros g Hg. exists []. apply Hfresh, Hg. }
  destruct (parallel_prefix (call (S n)) pre (VFuture f) [] h Hp eq_refl)
    as (F' & Hpar & Hlen & Hrf & Hlook).
  pose proof (lookup_lt_Some _ _ _ Hf) as Hflt.
  assert (Hfpre : f ∉ pre).
  { intros Hin. pose proof (Hfresh f Hin) as Hc. unfold fresh in Hc. congruence. }
  assert (Hocc : occ f pre = 0).
  { destruct (occ f pre) eqn:E; [reflexivity|]. exfalso. apply Hfpre, occ_elem. lia. }
  set (rf := length (futs h)) in *. set (j := length (joins h)) in *.
  replace (map VFuture pre ++ [VFuture f]) with (map VFuture (pre ++ [f])) in Hpar
    by (rewrite map_app; reflexivity).
  set (fs := pre ++ [f]) in *.
  set (res0 := odict_fromkeys (map VFuture fs)) in *.
  set (h0 := mkHeap F' (joins h ++ [mkJoin (map VFuture fs) res0 rf]) (coros h) (app_log h)) in *.
  assert (Hj0 : joins h0 !! j = Some (mkJoin (map VFuture fs) res0 rf))
    by (apply list_lookup_middle; reflexivity).
  assert (Hf0 : futs h0 !! f = Some (mkFuture (Resolved v) (cbs ++ []))).
  { cbn [futs h0]. rewrite (Hlook f Hflt), Hf, Hocc. reflexivity. }
  assert (Hfin : f ∈ fs) by (apply elem_of_app; right; left).
  destruct (done_resolved (call n) j f h0 fs res0 rf v _ Hj0 Hf0 Hfin)
    as (pend' & Ho & Hfil & Hdone).
  assert (Hpend : pend' = pre).
  { assert (Ho' : occ f pend' = 0).
    { unfold fs in Ho. rewrite occ_app in Ho. rewrite Hocc in Ho.
      cbn [occ] in Ho. rewrite Nat.eqb_refl in Ho. lia. }
    rewrite <- (filter_ne_nil_occ f pend' Ho'), Hfil. unfold fs.
    rewrite filter_app, filter_cons_False by (intros Hc; apply Hc; reflexivity).
    rewrite filter_nil, app_nil_r. apply filter_ne_notin. exact Hfpre. }
  subst pend'.
  set (res1 := odict_set (VFuture f) v res0).
  set (h1 := set_joins (<[j := mkJoin (map VFuture pre) res1 rf]> (joins h0)) h0).
  assert (Hrf1 : futs h1 !! rf = Some (mkFuture Pending [])) by exact Hrf.
  assert (Hres1 : res1 = map (entry (fun g => if decide (g = f) then v else VNone)) (uniq fs)).
  { unfold res1, res0. rewrite odict_fromkeys_futures.
    apply odict_set_present; [apply uniq_NoDup|apply uniq_elem; exact Hfin]. }
  assert (Hlt : forall g, g ∈ pre -> g < rf).
  { intros g Hg. apply Hfresh, lookup_lt_Some in Hg. exact Hg. }
  rewrite match_nil in Hdone. cbv zeta in Hdone. fold res1 in Hdone. fold h1 in Hdone.
  destruct (decide (pre = [])) as [Hpre|Hpre].
  - (* no pending argument: the join is resolved by the call *)
    assert (Hord0 : ord = []).
    { destruct ord as [|o ord']; [reflexivity|]. exfalso.
      assert (Hc : o ∈ pre) by (apply Hord; left). rewrite Hpre in Hc. inversion Hc. }
    subst ord.
    exists (set_futs (<[rf := mkFuture (Resolved (VList (map snd res1))) []]> (futs h1)) h1).
    eexists. split; [|split; [reflexivity|]].
    + rewrite Hpar. unfold value_add_done_callback, add_done_callback. unfold_monad.
      rewrite Hf0. cbn [f_state call]. rewrite Hdone.
      rewrite (set_result_no_callbacks (call n) rf _ h1 Hrf1). reflexivity.
    + cbn [futs set_futs]. rewrite list_lookup_insert_eq by (eapply lookup_lt_Some; exact Hrf1).
      do 4 f_equal. rewrite Hres1, map_map. apply map_ext_in. intros g Hg. unfold entry. cbn [snd].
      destruct (decide (g = f)); [reflexivity|]. exfalso.
      apply list_elem_of_In in Hg. apply (proj1 (uniq_elem _ _)) in Hg.
      unfold fs in Hg. rewrite Hpre in Hg. apply list_elem_of_singleton in Hg. contradiction.
  - assert (Hj1 : joins h1 !! j = Some (mkJoin (map VFuture pre) res1 rf)).
    { apply list_lookup_insert_eq. eapply lookup_lt_Some. exact Hj0. }
    assert (Hp1 : forall g, g ∈ pre ->
              futs h1 !! g = Some (mkFuture Pending (replicate (occ g pre) (CbDone j)))).
    { intros g Hg. cbn [futs h1 h0 set_joins]. rewrite Hlook by (apply Hlt, Hg).
      rewrite (Hfresh g Hg). reflexivity. }
    assert (Hne : ord ≠ []).
    { intros ->. destruct pre as [|p pre']; [congruence|].
      assert (Hc : p ∈ @nil fid) by (apply Hord; left). inversion Hc. }
    assert (Hrfn : rf ∉ ord).
    { intros Hin. apply Hord, Hlt in Hin. lia. }
    assert (Hrf2 : resolved_futs (futs h1) ord r !! rf = Some (mkFuture Pending [])).
    { rewrite resolved_futs_other by exact Hrfn. exact Hrf1. }
    exists h1. eexists. split; [|split].
    + rewrite Hpar. unfold value_add_done_callback, add_done_callback. unfold_monad.
      rewrite Hf0. cbn [f_state call]. rewrite Hdone. reflexivity.
    + rewrite (join_completes n j rf r ord pre res1 h1 Hnd Hord Hne Hj1 Hp1).
      unfold bind, logged, try_except. rewrite set_result_no_callbacks by exact Hrf2.
      reflexivity.
    + cbn [futs set_futs]. rewrite list_lookup_insert_eq by (eapply lookup_lt_Some; exact Hrf2).
      do 4 f_equal. rewrite Hres1.
      rewrite results_after_entries;
        [|apply uniq_NoDup
         |intros g Hg; apply uniq_elem; apply elem_of_app; left; apply Hord, Hg].
      rewrite map_map. apply map_ext_in. intros g Hg. unfold entry. cbn [snd].
      apply list_elem_of_In in Hg. apply (proj1 (uniq_elem _ _)) in Hg.
      unfold fs in Hg. apply elem_of_app in Hg as [Hg|Hg].
      * rewrite decide_True by (apply Hord, Hg).
        rewrite decide_False by (intros ->; contradiction). reflexivity.
      * apply list_elem_of_singleton in Hg. subst g.
        rewrite decide_False by (intros Hc; apply Hfpre, Hord, Hc).
        rewrite !decide_True by reflexivity. reflexivity.
Qed.

(** *** Edge cases of the trampoline *)

Lemma set_exception_fresh cl rf e h :
  fresh h rf ->
  set_exception cl rf e h = Ok tt (set_futs (<[rf := mkFuture (Failed e) []]> (futs h)) h).
Proof.
  intros Hrf. unfold set_exception, settle, bind, get_future. rewrite Hrf. reflexivity.
Qed.

(** A yielded value the trampoline cannot wait for fails the outer
    future. *)
Lemma advance_not_awaitable cl c st rf y send throw e h :
  coros h !! c = Some (mkCoroutine st rf) -> fresh h rf ->
  not_awaitable y = Some e ->
  exists h2,
    advance cl c (GYield y send throw) h = Ok tt h2 /\
    futs h2 !! rf = Some (mkFuture (Failed e) []) /\
    coros h2 !! c = Some (mkCoroutine (GenSuspended send throw) rf).
Proof.
  intros Hc Hrf Hy.
  pose proof (lookup_lt_Some _ _ _ Hc) as Hclt.
  pose proof (lookup_lt_Some _ _ _ Hrf) as Hrflt.
  set (h0 := set_coros (<[c := mkCoroutine (GenSuspended send throw) rf]> (coros h)) h).
  assert (Hattr : forall h', fresh h' rf ->
            coros h' = <[c := mkCoroutine (GenSuspended send throw) rf]> (coros h) ->
            forall e', is_Exception e' = true -> is_StopIteration e' = false ->
            exists h2,
              on_exception cl rf e' h' = Ok tt h2 /\
              futs h2 !! rf = Some (mkFuture (Failed e') []) /\
              coros h2 !! c = Some (mkCoroutine (GenSuspended send throw) rf)).
  { intros h' Hrf' Hc' e' He' Hs'. eexists. split; [|split].
    - unfold on_exception. destruct e'; try discriminate He'; try discriminate Hs';
        cbn [is_Exception]; apply set_exception_fresh; exact Hrf'.
    - cbn [futs set_futs]. apply list_lookup_insert_eq. eapply lookup_lt_Some. exact Hrf'.
    - cbn [coros set_futs]. rewrite Hc'. apply list_lookup_insert_eq. exact Hclt. }
  assert (Hplain : (forall f, y ≠ VFuture f) -> (forall l, y ≠ VTuple l) ->
            advance cl c (GYield y send throw) h = on_exception cl rf AttributeError h0).
  { intros Hnf Hnt. unfold advance, resume, await, value_add_done_callback. unfold_monad.
    rewrite Hc; reduce_store.
    destruct y; try reflexivity; exfalso; [exact (Hnf _ eq_refl)|exact (Hnt _ eq_refl)]. }
  destruct y as [|b|z|f|elems|l]; cbn [not_awaitable] in Hy; try discriminate Hy;
    try (injection Hy as <-; rewrite Hplain by (intros; discriminate);
         apply Hattr; [exact Hrf|reflexivity|reflexivity|reflexivity]).
  destruct (forallb hashable elems) eqn:Hhash.
  - destruct elems as [|x rest]; [discriminate Hy|].
    assert (Hx : forall f, x ≠ VFuture f) by (intros f ->; discriminate Hy).
    assert (He : e = AttributeError) by (destruct x; congruence). subst e. clear Hy.
    set (J := mkJoin (x :: rest) (odict_fromkeys (x :: rest)) (length (futs h))).
    set (h1 := mkHeap (futs h ++ [mkFuture Pending []]) (joins h ++ [J])
                 (<[c := mkCoroutine (GenSuspended send throw) rf]> (coros h)) (app_log h)).
    assert (Hadv : advance cl c (GYield (VTuple (x :: rest)) send throw) h
                   = on_exception cl rf AttributeError h1).
    { unfold advance, resume, await, parallel, new_future, new_join. unfold_monad.
      rewrite Hc; reduce_store. rewrite Hhash. reduce_store.
      cbn [length for_futures]. unfold_monad. reduce_store.
      rewrite list_lookup_middle by reflexivity. reduce_store. cbn [lookup list_lookup].
      unfold value_add_done_callback.
      destruct x; try reflexivity. exfalso. exact (Hx _ eq_refl). }
    rewrite Hadv. apply Hattr; [|reflexivity|reflexivity|reflexivity].
    unfold fresh. cbn [futs h1]. rewrite lookup_app_l by exact Hrflt. exact Hrf.
  - injection Hy as <-.
    set (h1 := mkHeap (futs h ++ [mkFuture Pending []]) (joins h)
                 (<[c := mkCoroutine (GenSuspended send throw) rf]> (coros h)) (app_log h)).
    assert (Hadv : advance cl c (GYield (VTuple elems) send throw) h
                   = on_exception cl rf TypeError h1).
    { unfold advance, resume, await, parallel, new_future. unfold_monad.
      rewrite Hc; reduce_store. rewrite Hhash. reflexivity. }
    rewrite Hadv. apply Hattr; [|reflexivity|reflexivity|reflexivity].
    unfold fresh. cbn [futs h1]. rewrite lookup_app_l by exact Hrflt. exact Hrf.
Qed.

(** X6: when the generator yields, first or after any number of awaits,
    a value that cannot be waited for (neither a future nor a tuple; a
    tuple with an unhashable element; a tuple that starts with something
    else than a future), the outer future fails with the [AttributeError]
    or [TypeError] this raises in the trampoline, and the generator is left
    suspended at that yield: it is neither resumed nor closed. *)
Theorem coroutine_fails_on_non_awaitable_yield n sc g y send throw e h :
  gen_after g sc = Some (GYield y send throw) -> not_awaitable y = Some e ->
  well_formed sc -> NoDup (settled_by sc) ->
  (forall f, f ∈ settled_by sc -> fresh h f) ->
  exists h1 h2,
    wrapper (call (S (S n))) g h = Ok (length (futs h)) h1 /\
    play (S (S n)) sc h1 = Ok tt h2 /\
    futs h2 !! length (futs h) = Some (mkFuture (Failed e) []) /\
    coros h2 !! length (coros h)
    = Some (mkCoroutine (GenSuspended send throw) (length (futs h))).
Proof.
  intros Hg Hy Hwf Hnd Hfresh.
  set (rf := length (futs h)). set (c := length (coros h)).
  set (h0 := mkHeap (futs h ++ [mkFuture Pending []]) (joins h)
               (coros h ++ [mkCoroutine (GenCreated g) rf]) (app_log h)).
  destruct (drive n c rf
              (fun h2 => futs h2 !! rf = Some (mkFuture (Failed e) []) /\
                         coros h2 !! c = Some (mkCoroutine (GenSuspended send throw) rf))
              (GYield y send throw) [rf] sc g h0 (GenCreated g) Hg Hwf Hnd)
    with (cl := call (S (S n))) as (h1 & h2 & Hadv & Hkeep & Hplay & HQ1 & HQ2).
  - intros f Hf. unfold fresh. cbn [futs h0].
    rewrite lookup_app_l by (eapply lookup_lt_Some; apply Hfresh, Hf). apply Hfresh, Hf.
  - intros f Hf. apply list_elem_of_singleton in Hf. subst f. split.
    + unfold fresh. cbn [futs h0]. apply list_lookup_middle. reflexivity.
    + intros Hin. apply Hfresh, lookup_lt_Some in Hin. unfold rf in Hin. lia.
  - cbn [coros h0]. apply list_lookup_middle. reflexivity.
  - intros cl' h' st' Hc' Hk'.
    assert (Hrf : fresh h' rf) by (apply Hk', list_elem_of_singleton; reflexivity).
    exact (advance_not_awaitable cl' c st' rf y send throw e h' Hc' Hrf Hy).
  - exists h1, h2. split; [|split; [exact Hplay|split; [exact HQ1|exact HQ2]]].
    rewrite wrapper_advance. fold rf c h0. unfold bind. rewrite Hadv. reflexivity.
Qed.

(** X7: a coroutine whose first yield is a future that has already
    settled does not wait: [add_done_callback] calls [handle_future] at
    once, inside the call of the wrapper, and when the generator ends
    there the future the wrapper returns is already settled. *)
Theorem coroutine_on_settled_future_completes_at_once n f o cbs send throw e h :
  futs h !! f
  = Some (mkFuture (match o with inl v => Resolved v | inr e' => Failed e' end) cbs) ->
  match o with inl v => send v | inr e' => throw e' end = GRaise e ->
  is_Exception e = true ->
  exists h1,
    wrapper (call (S n)) (GYield (VFuture f) send throw) h = Ok (length (futs h)) h1 /\
    futs h1 !! length (futs h) = Some (mkFuture (final_state e) []).
Proof.
  intros Hf Hend He.
  pose proof (lookup_lt_Some _ _ _ Hf) as Hflt.
  set (rf := length (futs h)). set (c := length (coros h)).
  set (g := GYield (VFuture f) send throw).
  set (h0 := mkHeap (futs h ++ [mkFuture Pending []]) (joins h)
               (coros h ++ [mkCoroutine (GenCreated g) rf]) (app_log h)).
  set (h1 := set_coros (<[c := mkCoroutine (GenSuspended send throw) rf]> (coros h0)) h0).
  assert (Hc0 : coros h0 !! c = Some (mkCoroutine (GenCreated g) rf))
    by (apply list_lookup_middle; reflexivity).
  assert (Hc1 : coros h1 !! c = Some (mkCoroutine (GenSuspended send throw) rf)).
  { apply list_lookup_insert_eq. eapply lookup_lt_Some. exact Hc0. }
  assert (Hf1 : futs h1 !! f
                = Some (mkFuture (match o with inl v => Resolved v | inr e' => Failed e' end) cbs)).
  { cbn [futs h1 h0 set_coros]. rewrite lookup_app_l by exact Hflt. exact Hf. }
  assert (Hrf1 : fresh h1 rf) by (apply list_lookup_middle; reflexivity).
  assert (Hhf : handle_future (call n) c f h1
                = Ok tt (mkHeap (<[rf := mkFuture (final_state e) []]> (futs h1)) (joins h1)
                           (<[c := mkCoroutine GenFinished rf]> (coros h1)) (app_log h1))).
  { destruct o as [v|e'].
    - rewrite (handle_future_resolved (call n) c f h1 send throw rf v cbs Hc1 Hf1), Hend.
      apply (advance_raise (call n) c _ rf e h1 Hc1 Hrf1 He).
    - rewrite (handle_future_failed (call n) c f h1 send throw rf e' cbs Hc1 Hf1), Hend.
      apply (advance_raise (call n) c _ rf e h1 Hc1 Hrf1 He). }
  eexists. split.
  - rewrite wrapper_advance. fold rf c g h0.
    unfold advance, resume, await, value_add_done_callback, add_done_callback, g.
    unfold_monad. rewrite Hc0; reduce_store. fold h1.
    change (futs h0 !! f) with (futs h1 !! f). rewrite Hf1. reduce_store.
    assert (Hcall : forall st cb, st ≠ Pending ->
              match st with
              | Pending => cb
              | _ => call (S n) (CbHandleFuture c) f
              end = handle_future (call n) c f).
    { intros st cb Hst. destruct st; [contradiction|reflexivity|reflexivity]. }
    rewrite Hcall by (destruct o; discriminate). rewrite Hhf. reflexivity.
  - cbn [futs]. apply list_lookup_insert_eq. eapply lookup_lt_Some. exact Hrf1.
Qed.

(** X8: the trampoline catches [Exception] only.  A [BaseException]
    that leaves the generator (a [KeyboardInterrupt], say) is raised by
    the wrapper, which then returns no future, and by [handle_future],
    into the code that settled the awaited future; the outer future is
    left as it is, pending, in both cases. *)
Theorem base_exception_escapes_the_trampoline cl c f h send throw rf o cbs k :
  coros h !! c = Some (mkCoroutine (GenSuspended send throw) rf) ->
  futs h !! f
  = Some (mkFuture (match o with inl v => Resolved v | inr e' => Failed e' end) cbs) ->
  match o with inl v => send v | inr e' => throw e' end = GRaise (BaseExc k) ->
  (exists h', handle_future cl c f h = Raise (BaseExc k) h' /\ futs h' = futs h) /\
  (exists h', wrapper cl (GRaise (BaseExc k)) h = Raise (BaseExc k) h' /\
              fresh h' (length (futs h))).
Proof.
  intros Hc Hf Hend. split.
  - eexists. split.
    + destruct o as [v|e'].
      * rewrite (handle_future_resolved cl c f h send throw rf v cbs Hc Hf), Hend.
        unfold advance, resume. unfold_monad. rewrite Hc; reduce_store. reflexivity.
      * rewrite (handle_future_failed cl c f h send throw rf e' cbs Hc Hf), Hend.
        unfold advance, resume. unfold_monad. rewrite Hc; reduce_store. reflexivity.
    + reflexivity.
  - eexists. split.
    + rewrite wrapper_advance. unfold advance, resume. unfold_monad. reduce_store.
      rewrite list_lookup_middle by reflexivity. reduce_store. reflexivity.
    + unfold fresh. cbn [futs set_coros]. apply list_lookup_middle. reflexivity.
Qed.

(** *** Instances *)

Lemma parallel_reports_failed_input_as_None_witness :
  exists h1 h2 h3 h4,
    parallel (call 1) [VFuture 0; VFuture 1; VFuture 2] three_fresh = Ok 3 h1 /\
    resolve_all 1 [0] times_ten h1 = Ok tt h2 /\
    set_exception (call 1) 1 (Error 7) h2 = Ok tt h3 /\
    futs h3 !! 3 = Some (mkFuture Pending []) /\
    resolve_all 1 [2] times_ten h3 = Ok tt h4 /\
    futs h4 !! 3 = Some (mkFuture (Resolved (VList [VInt 0; VNone; VInt 20])) []).
Proof.
  apply (parallel_reports_failed_input_as_None 0 [0; 1; 2] [0] [2] 1 (Error 7) times_ten
           three_fresh).
  - intros g Hg. elem_cases Hg; reflexivity.
  - reflexivity.
  - by apply (bool_decide_unpack _).
  - intros g. split; intros Hg; elem_cases Hg; by apply (bool_decide_unpack _).
  - discriminate.
Defined.

Lemma parallel_never_completes_when_last_input_fails_witness :
  exists h1 h2 h3 J,
    parallel (call 1) [VFuture 0; VFuture 1] three_fresh = Ok 3 h1 /\
    resolve_all 1 [0] times_ten h1 = Ok tt h2 /\
    set_exception (call 1) 1 (Error 7) h2 = Ok tt h3 /\
    futs h3 !! 3 = Some (mkFuture Pending []) /\
    joins h3 !! 0 = Some J /\ futures J = [] /\
    (forall g, g ∈ [0; 1] ->
       exists st, st ≠ Pending /\ futs h3 !! g = Some (mkFuture st [])) /\
    app_log h3 = [Error 7].
Proof.
  apply (parallel_never_completes_when_last_input_fails 0 [0; 1] [0] 1 (Error 7) times_ten
           three_fresh).
  - intros g Hg. elem_cases Hg; reflexivity.
  - reflexivity.
  - by apply (bool_decide_unpack _).
  - intros g. split; intros Hg; elem_cases Hg; by apply (bool_decide_unpack _).
Defined.

Lemma parallel_raises_error_of_failed_argument_witness :
  exists h',
    parallel (call 1) [VFuture 0; VFuture 1; VInt 5]
      (mkHeap [mkFuture Pending []; mkFuture (Failed (Error 7)) []] [] [] [])
    = Raise (Error 7) h' /\
    fresh h' 2 /\
    forall g, g ∈ [0] ->
      futs h' !! g
      = with_callbacks (replicate (occ g [0]) (CbDone 0))
          <$> ([mkFuture Pending []; mkFuture (Failed (Error 7)) []] !! g).
Proof.
  apply (parallel_raises_error_of_failed_argument 0 [0] 1 [VInt 5] (Error 7) []
           (mkHeap [mkFuture Pending []; mkFuture (Failed (Error 7)) []] [] [] [])).
  - intros g Hg. elem_cases Hg. exists []. reflexivity.
  - reflexivity.
  - reflexivity.
Defined.

Lemma parallel_raises_on_non_future_argument_witness :
  exists h',
    parallel (call 1) [VFuture 0; VInt 5; VFuture 1] three_fresh = Raise AttributeError h' /\
    fresh h' 3 /\
    forall g, g ∈ [0] ->
      futs h' !! g
      = with_callbacks (replicate (occ g [0]) (CbDone 0)) <$> (futs three_fresh !! g).
Proof.
  apply (parallel_raises_on_non_future_argument (call 1) [0] (VInt 5) [VFuture 1] three_fresh).
  - intros g Hg. elem_cases Hg. exists []. reflexivity.
  - intros f. discriminate.
  - reflexivity.
Defined.

Lemma parallel_accepts_resolved_last_argument_witness :
  exists h1 h2,
    parallel (call 1) [VFuture 0; VFuture 1]
      (mkHeap [mkFuture Pending []; mkFuture (Resolved (VInt 7)) []] [] [] []) = Ok 2 h1 /\
    resolve_all 1 [0] times_ten h1 = Ok tt h2 /\
    futs h2 !! 2 = Some (mkFuture (Resolved (VList [VInt 0; VInt 7])) []).
Proof.
  apply (parallel_accepts_resolved_last_argument 0 [0] [0] 1 (VInt 7) [] times_ten
           (mkHeap [mkFuture Pending []; mkFuture (Resolved (VInt 7)) []] [] [] [])).
  - intros g Hg. elem_cases Hg. reflexivity.
  - reflexivity.
  - by apply (bool_decide_unpack _).
  - intros g. reflexivity.
Defined.

Lemma coroutine_fails_on_non_awaitable_yield_witness :
  exists h1 h2,
    wrapper (call 2)
      (GYield (VFuture 0)
         (fun _ => GYield (VTuple [VInt 1; VFuture 1]) (fun v => GReturn v) (fun e => GRaise e))
         (fun e => GRaise e))
      three_fresh = Ok 3 h1 /\
    play 2 [Settles 0 (inl VNone)] h1 = Ok tt h2 /\
    futs h2 !! 3 = Some (mkFuture (Failed AttributeError) []) /\
    coros h2 !! 0 = Some (mkCoroutine (GenSuspended (fun v => GReturn v) (fun e => GRaise e)) 3).
Proof.
  apply (coroutine_fails_on_non_awaitable_yield 0 [Settles 0 (inl VNone)]
           (GYield (VFuture 0)
              (fun _ => GYield (VTuple [VInt 1; VFuture 1]) (fun v => GReturn v) (fun e => GRaise e))
              (fun e => GRaise e))
           (VTuple [VInt 1; VFuture 1]) (fun v => GReturn v) (fun e => GRaise e)
           AttributeError three_fresh).
  - reflexivity.
  - reflexivity.
  - exact I.
  - by apply (bool_decide_unpack _).
  - intros f Hf. elem_cases Hf; reflexivity.
Defined.

Lemma coroutine_on_settled_future_completes_at_once_witness :
  exists h1,
    wrapper (call 1) add_one (mkHeap [mkFuture (Resolved (VInt 5)) []] [] [] []) = Ok 1 h1 /\
    futs h1 !! 1 = Some (mkFuture (Resolved (VInt 6)) []).
Proof.
  apply (coroutine_on_settled_future_completes_at_once 0 0 (inl (VInt 5)) []
           (fun v => match v with VInt z => GReturn (VInt (z + 1)) | _ => GRaise TypeError end)
           (fun e => GRaise e) (StopIteration (VInt 6))
           (mkHeap [mkFuture (Resolved (VInt 5)) []] [] [] [])).
  - reflexivity.
  - reflexivity.
  - reflexivity.
Defined.

Lemma base_exception_escapes_the_trampoline_witness :
  (exists h',
     handle_future (call 1) 0 0
       (mkHeap [mkFuture (Failed (BaseExc 2)) []; mkFuture Pending []] []
          [mkCoroutine (GenSuspended (fun v => GReturn v) (fun e => GRaise e)) 1] [])
     = Raise (BaseExc 2) h' /\
     futs h' = [mkFuture (Failed (BaseExc 2)) []; mkFuture Pending []]) /\
  (exists h',
     wrapper (call 1) (GRaise (BaseExc 2))
       (mkHeap [mkFuture (Failed (BaseExc 2)) []; mkFuture Pending []] []
          [mkCoroutine (GenSuspended (fun v => GReturn v) (fun e => GRaise e)) 1] [])
     = Raise (BaseExc 2) h' /\
     fresh h' 2).
Proof.
  apply (base_exception_escapes_the_trampoline (call 1) 0 0
           (mkHeap [mkFuture (Failed (BaseExc 2)) []; mkFuture Pending []] []
              [mkCoroutine (GenSuspended (fun v => GReturn v) (fun e => GRaise e)) 1] [])
           (fun v => GReturn v) (fun e => GRaise e) 1 (inr (BaseExc 2)) [] 2).
  - reflexivity.
  - reflexivity.
  - reflexivity.
Defined.

End StoreMore.

(** ** Further properties of the descriptor table *)

Module LoopMore.
Import Loop.

Section More.
Variable EVENT_MAPPING : event -> Z.
Variable handler_raises : handler -> Z -> option exn.

Lemma land_lor_same a b : Z.land (Z.lor a b) a = a.
Proof.
  apply Z.bits_inj'. intros n Hn. rewrite Z.land_spec, Z.lor_spec.
  destruct (Z.testbit a n), (Z.testbit b n); reflexivity.
Qed.

Lemma get_set_list ev ev' l (H : fd_handlers) :
  get_list ev' (set_list ev l H) = if decide (ev' = ev) then l else get_list ev' H.
Proof. destruct ev, ev'; reflexivity. Qed.

Lemma update_events_ok fd H (L : EventLoop) :
  handlers L !! fd = Some H ->
  _update_events EVENT_MAPPING fd L
  = LOk tt (mkLoop (handlers L)
              (<[fd := collect_events EVENT_MAPPING H]> (delete fd (io_handlers L)))).
Proof. intros HL. unfold _update_events. simpl. rewrite HL. reflexivity. Qed.

Lemma on_event_ok ev fd cb H (L : EventLoop) :
  handlers L !! fd = Some H ->
  on_event EVENT_MAPPING ev fd cb L
  = LOk tt (mkLoop (<[fd := set_list ev (get_list ev H ++ [cb]) H]> (handlers L))
              (<[fd := collect_events EVENT_MAPPING (set_list ev (get_list ev H ++ [cb]) H)]>
                 (delete fd (io_handlers L)))).
Proof.
  intros HL. unfold on_event. rewrite HL.
  erewrite update_events_ok; [reflexivity|]. simpl. apply lookup_insert_eq.
Qed.

Lemma off_event_ok ev fd cb H l (L : EventLoop) :
  handlers L !! fd = Some H ->
  remove_handler_from cb (get_list ev H) = Some l ->
  off_event EVENT_MAPPING ev fd cb L
  = LOk tt (mkLoop (<[fd := set_list ev l H]> (handlers L))
              (<[fd := collect_events EVENT_MAPPING (set_list ev l H)]>
                 (delete fd (io_handlers L)))).
Proof.
  intros HL Hrem. unfold off_event. rewrite HL, Hrem.
  erewrite update_events_ok; [reflexivity|]. simpl. apply lookup_insert_eq.
Qed.

Lemma existsb_app_last cb (l : list handler) : existsb (Nat.eqb cb) (l ++ [cb]) = true.
Proof. rewrite existsb_app. simpl. rewrite Nat.eqb_refl, orb_true_r. reflexivity. Qed.

(** X9: registering a descriptor that was not registered and unregistering it
    again gives the loop back as it was. *)
Theorem register_unregister_round_trip fd (L : EventLoop) :
  handlers L !! fd = None ->
  exists L1, register fd L = LOk tt L1 /\ unregister fd L1 = LOk tt L.
Proof.
  intros Hfd. eexists. split; [reflexivity|].
  unfold unregister. simpl. rewrite lookup_insert_eq.
  rewrite delete_insert_id by exact Hfd. destruct L; reflexivity.
Qed.

(** X10: [unregister] forgets the callbacks of the descriptor but does not
    take it out of the multiplexer: the mask applied last stays in place,
    and whatever is notified for the descriptor afterwards is ignored. *)
Theorem unregister_keeps_multiplexer_entry fd (L L' : EventLoop) :
  unregister fd L = LOk tt L' ->
  io_handlers L' = io_handlers L /\
  handlers L' !! fd = None /\
  forall events, _do_on_event EVENT_MAPPING handler_raises fd events L' = ([], LOk tt L').
Proof.
  unfold unregister. destruct (handlers L !! fd) eqn:E; [|discriminate].
  intros [= <-]. simpl. split; [reflexivity|].
  assert (Hdel : delete fd (handlers L) !! fd = None) by apply lookup_delete_eq.
  split; [exact Hdel|].
  intros events. unfold _do_on_event. simpl. rewrite Hdel. reflexivity.
Qed.

(** X11: [register] on a descriptor that has a read callback drops the
    callback but leaves the mask of the multiplexer as it was, read flag
    included: the descriptor is still watched for reading with nothing to
    call. *)
Theorem register_again_keeps_stale_mask fd cb (L L1 : EventLoop) :
  on_read EVENT_MAPPING fd cb L = LOk tt L1 ->
  exists L2 mask,
    register fd L1 = LOk tt L2 /\
    handles_read fd cb L2 = LOk false L2 /\
    io_handlers L2 !! fd = Some mask /\
    Z.land mask (EVENT_MAPPING read) = EVENT_MAPPING read.
Proof.
  unfold on_read. intros Hon.
  destruct (handlers L !! fd) as [H|] eqn:HL; [|unfold on_event in Hon; rewrite HL in Hon; discriminate].
  rewrite (on_event_ok read fd cb H L HL) in Hon. injection Hon as <-.
  eexists. eexists. split; [reflexivity|]. simpl.
  split; [|split].
  - unfold handles_read, handles_event. simpl. rewrite lookup_insert_eq. reflexivity.
  - apply lookup_insert_eq.
  - rewrite LoopFacts.collect_events_union. unfold interest_union, flag_if_nonempty.
    cbn [get_list set_list on_read_list].
    destruct (on_read_list H ++ [cb]) eqn:E; [destruct (on_read_list H); discriminate E|].
    apply land_lor_same.
Qed.

(** X12: after [on_read], [on_write] or [on_error] the callback is handled
    for that kind and descriptor; whatever was handled before still is, and
    for any other kind, descriptor or callback the answer of [handles_*] is
    what it was. *)
Theorem on_event_then_handles ev fd cb (L L' : EventLoop) :
  on_event EVENT_MAPPING ev fd cb L = LOk tt L' ->
  handles_event ev fd cb L' = LOk true L' /\
  forall ev' fd' cb' b,
    handles_event ev' fd' cb' L = LOk b L ->
    b = true \/ ev' ≠ ev \/ fd' ≠ fd \/ cb' ≠ cb ->
    handles_event ev' fd' cb' L' = LOk b L'.
Proof.
  intros Hon.
  destruct (handlers L !! fd) as [H|] eqn:HL; [|unfold on_event in Hon; rewrite HL in Hon; discriminate].
  rewrite (on_event_ok ev fd cb H L HL) in Hon. injection Hon as <-.
  split.
  - unfold handles_event. simpl. rewrite lookup_insert_eq, get_set_list.
    rewrite decide_True by reflexivity. rewrite existsb_app_last. reflexivity.
  - intros ev' fd' cb' b Hb Hcase. unfold handles_event in *. simpl.
    destruct (decide (fd' = fd)) as [->|Hfd].
    + rewrite HL in Hb. injection Hb as <-. rewrite lookup_insert_eq, get_set_list.
      destruct (decide (ev' = ev)) as [->|Hev]; [|reflexivity].
      rewrite existsb_app. cbn [existsb]. rewrite orb_false_r. unfold handler in *.
      destruct (existsb (Nat.eqb cb') (get_list ev H)) eqn:Ex; [reflexivity|].
      destruct (Nat.eqb_spec cb' cb) as [->|Hcb]; [|reflexivity].
      destruct Hcase as [?|[?|[?|?]]]; congruence.
    + rewrite lookup_insert_ne by congruence.
      destruct (handlers L !! fd'); [|discriminate Hb]. injection Hb as <-. reflexivity.
Qed.

(** X13: a call of [on_*] or [off_*] that raises leaves the loop exactly as it
    was, multiplexer included; it raises KeyError when the descriptor is
    not registered and, for [off_*], ValueError when the callback is not in
    the list. *)
Theorem failed_change_leaves_loop ev fd cb e (L L' : EventLoop) :
  on_event EVENT_MAPPING ev fd cb L = LRaise e L' \/
  off_event EVENT_MAPPING ev fd cb L = LRaise e L' ->
  L' = L /\
  (e = KeyError /\ handlers L !! fd = None \/
   e = ValueError /\ handles_event ev fd cb L = LOk false L).
Proof.
  intros [Hop|Hop].
  - destruct (handlers L !! fd) as [H|] eqn:HL.
    + rewrite (on_event_ok ev fd cb H L HL) in Hop. discriminate Hop.
    + unfold on_event in Hop. rewrite HL in Hop. injection Hop as <- <-. auto.
  - destruct (handlers L !! fd) as [H|] eqn:HL.
    + destruct (remove_handler_from cb (get_list ev H)) as [l|] eqn:Hrem.
      * rewrite (off_event_ok ev fd cb H l L HL Hrem) in Hop. discriminate Hop.
      * unfold off_event in Hop. rewrite HL, Hrem in Hop. injection Hop as <- <-.
        split; [reflexivity|]. right. split; [reflexivity|].
        unfold handles_event. rewrite HL. f_equal.
        clear HL. induction (get_list ev H) as [|y l IH]; [reflexivity|].
        simpl in *. rewrite (Nat.eqb_sym cb y).
        destruct (Nat.eqb y cb); [discriminate Hrem|]. simpl.
        apply IH. destruct (remove_handler_from cb l); [discriminate Hrem|reflexivity].
    + unfold off_event in Hop. rewrite HL in Hop. injection Hop as <- <-. auto.
Qed.

Lemma remove_handler_from_registrations cb (l l' : list handler) :
  remove_handler_from cb l = Some l' ->
  registrations cb l = S (registrations cb l') /\
  forall c, c ≠ cb -> registrations c l' = registrations c l.
Proof.
  unfold registrations. revert l'. induction l as [|y l IH]; intros l' Hrem; [discriminate Hrem|].
  simpl in Hrem. destruct (Nat.eqb_spec y cb) as [->|Hne].
  - injection Hrem as <-. split.
    + rewrite filter_cons_True by reflexivity. reflexivity.
    + intros c Hc. rewrite filter_cons_False by congruence. reflexivity.
  - destruct (remove_handler_from cb l) as [l''|]; [|discriminate Hrem].
    injection Hrem as <-. destruct (IH l'' eq_refl) as [IH1 IH2]. split.
    + rewrite !filter_cons_False by exact Hne. exact IH1.
    + intros c Hc. destruct (decide (y = c)) as [->|Hyc].
      * rewrite !filter_cons_True by reflexivity. simpl. rewrite IH2 by exact Hc. reflexivity.
      * rewrite !filter_cons_False by exact Hyc. apply IH2, Hc.
Qed.

(** X14: [off_read], [off_write] and [off_error] take away one registration
    of the callback in the list of that kind, and no more: a callback
    registered twice is still handled after one removal, and every other
    registration, of any kind, is kept. *)
Theorem off_event_removes_one_registration ev fd cb (L L' : EventLoop) :
  off_event EVENT_MAPPING ev fd cb L = LOk tt L' ->
  exists H H',
    handlers L !! fd = Some H /\ handlers L' !! fd = Some H' /\
    registrations cb (get_list ev H) = S (registrations cb (get_list ev H')) /\
    forall ev' c, ev' ≠ ev \/ c ≠ cb ->
      registrations c (get_list ev' H') = registrations c (get_list ev' H).
Proof.
  intros Hoff.
  destruct (handlers L !! fd) as [H|] eqn:HL; [|unfold off_event in Hoff; rewrite HL in Hoff; discriminate].
  destruct (remove_handler_from cb (get_list ev H)) as [l|] eqn:Hrem;
    [|unfold off_event in Hoff; rewrite HL, Hrem in Hoff; discriminate].
  rewrite (off_event_ok ev fd cb H l L HL Hrem) in Hoff. injection Hoff as <-.
  destruct (remove_handler_from_registrations cb _ l Hrem) as [H1 H2].
  exists H, (set_list ev l H). split; [reflexivity|].
  split; [simpl; apply lookup_insert_eq|]. split.
  - rewrite get_set_list, decide_True by reflexivity. exact H1.
  - intros ev' c Hc. rewrite get_set_list.
    destruct (decide (ev' = ev)) as [->|Hev]; [|reflexivity].
    apply H2. destruct Hc as [?|?]; congruence.
Qed.

Lemma call_handlers_prefix fd (l : list handler) :
  exists rest,
    l = fst (call_handlers handler_raises fd l) ++ rest /\
    match snd (call_handlers handler_raises fd l) with
    | None => rest = [] /\
              Forall (fun h => handler_raises h fd = None) l
    | Some e => exists pre h,
        fst (call_handlers handler_raises fd l) = pre ++ [h] /\
        Forall (fun h => handler_raises h fd = None) pre /\
        handler_raises h fd = Some e
    end.
Proof.
  induction l as [|h l IH]; simpl.
  - exists []. split; [reflexivity|]. split; [reflexivity|constructor].
  - destruct (handler_raises h fd) as [e|] eqn:Hh; simpl.
    + exists l. split; [reflexivity|]. exists [], h. split; [reflexivity|].
      split; [constructor|exact Hh].
    + destruct (call_handlers handler_raises fd l) as [called r]. simpl in *.
      destruct IH as (rest & Hl & Hr). exists rest. split; [f_equal; exact Hl|].
      destruct r as [e|].
      * destruct Hr as (pre & h' & Hc & Hpre & Hh'). exists (h :: pre), h'.
        split; [simpl; f_equal; exact Hc|]. split; [constructor; assumption|exact Hh'].
      * destruct Hr as [-> Hall]. split; [reflexivity|constructor; assumption].
Qed.

Lemma dispatch_prefix fd events H (items : list (event * Z)) :
  exists rest,
    flat_map (fun '(ev, ident) =>
                if Z.eqb (Z.land events ident) 0 then [] else get_list ev H) items
    = fst (dispatch handler_raises fd events H items) ++ rest /\
    match snd (dispatch handler_raises fd events H items) with
    | None => rest = [] /\
              Forall (fun h => handler_raises h fd = None)
                (fst (dispatch handler_raises fd events H items))
    | Some e => exists pre h,
        fst (dispatch handler_raises fd events H items) = pre ++ [h] /\
        Forall (fun h => handler_raises h fd = None) pre /\
        handler_raises h fd = Some e
    end.
Proof.
  induction items as [|[ev ident] items IH]; simpl.
  - exists []. split; [reflexivity|]. split; [reflexivity|constructor].
  - destruct (Z.eqb (Z.land events ident) 0); [exact IH|].
    destruct (call_handlers_prefix fd (get_list ev H)) as (rest1 & Hl & Hr).
    destruct (call_handlers handler_raises fd (get_list ev H)) as [called r]. simpl in *.
    destruct r as [e|].
    + simpl. exists (rest1 ++ flat_map (fun '(ev, ident) =>
                if Z.eqb (Z.land events ident) 0 then [] else get_list ev H) items).
      split; [rewrite Hl at 1; rewrite <- app_assoc; reflexivity|exact Hr].
    + destruct Hr as [-> Hall]. rewrite app_nil_r in Hl. subst called.
      destruct (dispatch handler_raises fd events H items) as [called' r']. simpl in *.
      destruct IH as (rest & Hf & Hr'). exists rest.
      split; [rewrite Hf, <- app_assoc; reflexivity|].
      destruct r' as [e|].
      * destruct Hr' as (pre & h & Hc & Hpre & Hh). exists (get_list ev H ++ pre), h.
        split; [rewrite Hc, app_assoc; reflexivity|].
        split; [apply Forall_app; split; [exact Hall|exact Hpre]|exact Hh].
      * destruct Hr' as [-> Hall']. split; [reflexivity|].
        apply Forall_app; split; [exact Hall|exact Hall'].
Qed.

(** X15: a notification for a registered descriptor calls the callbacks of
    the kinds whose flag it carries, kind by kind as [EVENT_MAPPING] lists
    them (read, write, error), each list in registration order, and stops
    at the first callback that raises, whose exception leaves
    [_do_on_event]; the method itself changes nothing in the loop. *)
Theorem notification_calls_selected_in_order fd events H (L : EventLoop) :
  handlers L !! fd = Some H ->
  exists called rest,
    selected EVENT_MAPPING events H = called ++ rest /\
    (_do_on_event EVENT_MAPPING handler_raises fd events L = (called, LOk tt L) /\
     rest = [] /\ Forall (fun h => handler_raises h fd = None) called
     \/
     exists pre h e,
       _do_on_event EVENT_MAPPING handler_raises fd events L = (called, LRaise e L) /\
       called = pre ++ [h] /\
       Forall (fun h => handler_raises h fd = None) pre /\
       handler_raises h fd = Some e).
Proof.
  intros HL. unfold _do_on_event. rewrite HL.
  destruct (dispatch_prefix fd events H (EVENT_MAPPING_items EVENT_MAPPING)) as (rest & Hsel & Hr).
  destruct (dispatch handler_raises fd events H (EVENT_MAPPING_items EVENT_MAPPING))
    as [called r]. simpl in *.
  exists called, rest. split.
  - rewrite <- Hsel. unfold selected, selected_for. rewrite app_nil_r. reflexivity.
  - destruct r as [e|].
    + right. destruct Hr as (pre & h & Hc & Hpre & Hh). exists pre, h, e. auto.
    + left. destruct Hr as [-> Hall]. auto.
Qed.

End More.
(** *** Instances *)

Lemma register_unregister_round_trip_witness :
  exists L1,
    register 3%Z (mkLoop {[4%Z := mkFd [7] [] []]} {[4%Z := 1%Z]}) = LOk tt L1 /\
    unregister 3%Z L1 = LOk tt (mkLoop {[4%Z := mkFd [7] [] []]} {[4%Z := 1%Z]}).
Proof.
  apply (register_unregister_round_trip 3%Z (mkLoop {[4%Z := mkFd [7] [] []]} {[4%Z := 1%Z]})).
  reflexivity.
Defined.

Lemma unregister_keeps_multiplexer_entry_witness :
  io_handlers (mkLoop ∅ {[3%Z := 1%Z]}) = {[3%Z := 1%Z]} /\
  handlers (mkLoop ∅ {[3%Z := 1%Z]}) !! 3%Z = None /\
  forall events,
    _do_on_event tornado_flags (fun _ _ => None) 3%Z events (mkLoop ∅ {[3%Z := 1%Z]})
    = ([], LOk tt (mkLoop ∅ {[3%Z := 1%Z]})).
Proof.
  exact (unregister_keeps_multiplexer_entry tornado_flags (fun _ _ => None) 3%Z
           (mkLoop {[3%Z := mkFd [7] [] []]} {[3%Z := 1%Z]}) (mkLoop ∅ {[3%Z := 1%Z]})
           eq_refl).
Defined.

Lemma register_again_keeps_stale_mask_witness :
  exists L2 mask,
    register 3%Z (mkLoop {[3%Z := mkFd [7] [] []]} {[3%Z := 1%Z]}) = LOk tt L2 /\
    handles_read 3%Z 7 L2 = LOk false L2 /\
    io_handlers L2 !! 3%Z = Some mask /\
    Z.land mask (tornado_flags read) = tornado_flags read.
Proof.
  apply (register_again_keeps_stale_mask tornado_flags 3%Z 7
           (mkLoop {[3%Z := mkFd [] [] []]} ∅)
           (mkLoop {[3%Z := mkFd [7] [] []]} {[3%Z := 1%Z]})).
  reflexivity.
Defined.

Lemma on_event_then_handles_witness :
  handles_event write 3%Z 7 (mkLoop {[3%Z := mkFd [9] [7] []]} {[3%Z := 5%Z]})
  = LOk true (mkLoop {[3%Z := mkFd [9] [7] []]} {[3%Z := 5%Z]}) /\
  forall ev' fd' cb' b,
    handles_event ev' fd' cb' (mkLoop {[3%Z := mkFd [9] [] []]} {[3%Z := 1%Z]})
    = LOk b (mkLoop {[3%Z := mkFd [9] [] []]} {[3%Z := 1%Z]}) ->
    b = true \/ ev' ≠ write \/ fd' ≠ 3%Z \/ cb' ≠ 7 ->
    handles_event ev' fd' cb' (mkLoop {[3%Z := mkFd [9] [7] []]} {[3%Z := 5%Z]})
    = LOk b (mkLoop {[3%Z := mkFd [9] [7] []]} {[3%Z := 5%Z]}).
Proof.
  apply (on_event_then_handles tornado_flags write 3%Z 7
           (mkLoop {[3%Z := mkFd [9] [] []]} {[3%Z := 1%Z]})
           (mkLoop {[3%Z := mkFd [9] [7] []]} {[3%Z := 5%Z]})).
  reflexivity.
Defined.

Lemma failed_change_leaves_loop_witness :
  mkLoop {[3%Z := mkFd [9] [] []]} {[3%Z := 1%Z]}
  = mkLoop {[3%Z := mkFd [9] [] []]} {[3%Z := 1%Z]} /\
  (ValueError = KeyError /\
   handlers (mkLoop {[3%Z := mkFd [9] [] []]} {[3%Z := 1%Z]}) !! 3%Z = None \/
   ValueError = ValueError /\
   handles_event read 3%Z 7 (mkLoop {[3%Z := mkFd [9] [] []]} {[3%Z := 1%Z]})
   = LOk false (mkLoop {[3%Z := mkFd [9] [] []]} {[3%Z := 1%Z]})).
Proof.
  apply (failed_change_leaves_loop tornado_flags read 3%Z 7 ValueError
           (mkLoop {[3%Z := mkFd [9] [] []]} {[3%Z := 1%Z]})
           (mkLoop {[3%Z := mkFd [9] [] []]} {[3%Z := 1%Z]})).
  right. reflexivity.
Defined.

Lemma off_event_removes_one_registration_witness :
  exists H H',
    handlers (mkLoop {[3%Z := mkFd [7; 9; 7] [7] []]} {[3%Z := 5%Z]}) !! 3%Z = Some H /\
    handlers (mkLoop {[3%Z := mkFd [9; 7] [7] []]} {[3%Z := 5%Z]}) !! 3%Z = Some H' /\
    registrations 7 (get_list read H) = S (registrations 7 (get_list read H')) /\
    forall ev' c, ev' ≠ read \/ c ≠ 7 ->
      registrations c (get_list ev' H') = registrations c (get_list ev' H).
Proof.
  apply (off_event_removes_one_registration tornado_flags read 3%Z 7
           (mkLoop {[3%Z := mkFd [7; 9; 7] [7] []]} {[3%Z := 5%Z]})
           (mkLoop {[3%Z := mkFd [9; 7] [7] []]} {[3%Z := 5%Z]})).
  reflexivity.
Defined.

Lemma notification_calls_selected_in_order_witness :
  exists called rest,
    selected tornado_flags 5%Z (mkFd [7; 9] [8] [6]) = called ++ rest /\
    (_do_on_event tornado_flags (fun h _ => if Nat.eqb h 8 then Some (Error 1) else None)
       3%Z 5%Z (mkLoop {[3%Z := mkFd [7; 9] [8] [6]]} {[3%Z := 13%Z]})
     = (called, LOk tt (mkLoop {[3%Z := mkFd [7; 9] [8] [6]]} {[3%Z := 13%Z]})) /\
     rest = [] /\
     Forall (fun h => (if Nat.eqb h 8 then Some (Error 1) else None) = None) called
     \/
     exists pre h e,
       _do_on_event tornado_flags (fun h _ => if Nat.eqb h 8 then Some (Error 1) else None)
         3%Z 5%Z (mkLoop {[3%Z := mkFd [7; 9] [8] [6]]} {[3%Z := 13%Z]})
       = (called, LRaise e (mkLoop {[3%Z := mkFd [7; 9] [8] [6]]} {[3%Z := 13%Z]})) /\
       called = pre ++ [h] /\
       Forall (fun h => (if Nat.eqb h 8 then Some (Error 1) else None) = None) pre /\
       (if Nat.eqb h 8 then Some (Error 1) else None) = Some e).
Proof.
  apply (notification_calls_selected_in_order tornado_flags
           (fun h _ => if Nat.eqb h 8 then Some (Error 1) else None)
           3%Z 5%Z (mkFd [7; 9] [8] [6])
           (mkLoop {[3%Z := mkFd [7; 9] [8] [6]]} {[3%Z := 13%Z]})).
  reflexivity.
Defined.

End LoopMore.

(** ** Further properties of the timers *)

Module TimerMore.
Import Timer.

Section More.
Variable behaviour : nat -> nat -> value + exn.



Lemma idle_unscheduled cb (L : IOLoop) : idle L -> unscheduled cb L.
Proof. intros [Ht Hc]. unfold unscheduled. rewrite Ht, Hc. split; constructor. Qed.











End More.
(** *** Instances *)





End TimerMore.
